(** * Label_placer: greedy point-feature label placement

    A shallow embedding of [hasOverlap] and [placeLabels] of
    [src/Source.cpp] and [src/main.cpp], and the properties the
    specification states about them.

    Coordinates are C++ [double]s.  They are modelled by Rocq's primitive
    binary64 floats: every sum below is one IEEE 754 addition rounded to
    nearest-even, as the programs compute it when each intermediate value
    is a [double], and [<] answers [false] whenever a NaN is involved.
    Leibniz equality on [float] distinguishes [+0] from [-0] and identifies
    all NaNs.

    [std::vector] is a list in index order; [push_back] appends at the
    end. *)

From Stdlib Require Import List Bool ZArith Lia String Floats.
From stdpp Require Import base list.
Import ListNotations.

(* Decimal literals such as 0.4 denote the nearest binary64 value, as they
   do for the C++ compiler. *)
#[local] Set Warnings "-inexact-float".
#[local] Open Scope float_scope.

(** ** Geometry types *)

(** [bg::model::point<double, 2, bg::cs::cartesian>]: coordinate 0 and
    coordinate 1. *)
Record point_t : Type := mk_point { get0 : float; get1 : float }.

(** [bg::model::box<point_t>]: the two corners exactly as they were handed
    to the constructor, which stores them without reordering. *)
Record box_t : Type := mk_box { min_corner : point_t; max_corner : point_t }.

(** [struct labeled_point]. *)
Record labeled_point : Type := mk_labeled_point {
  point : point_t;
  label : string;
  label_box : box_t
}.

(** An input entry: [std::pair<point_t, std::string>]. *)
Definition input_point : Type := (point_t * string)%type.

(** The (point, label) identity of a placed label. *)
Definition spec_of (lp : labeled_point) : input_point := (point lp, label lp).

(** ** Boost.Geometry's box/box test *)

(** [x > y] on doubles. *)
Definition gtb (x y : float) : bool := y <? x.

(** Modelled from the spec: Boost.Geometry, whose [bg::intersects] both
    [hasOverlap]s call, is a library outside [src/].  Section 4.2 describes
    the call as an "intersects" test on closed intervals that is inclusive
    of touching.  That is the library's box/box algorithm, followed here:
    [intersects(b1, b2)] is [!disjoint(b1, b2)], and [disjoint] walks the
    dimensions and answers [true] at the first one where
    [max(b1) < min(b2)] or [min(b1) > max(b2)]. *)
Definition disjoint_dim (min1 max1 min2 max2 : float) : bool :=
  if max1 <? min2 then true
  else if gtb min1 max2 then true
  else false.

Definition bg_disjoint (b1 b2 : box_t) : bool :=
  if disjoint_dim (get0 (min_corner b1)) (get0 (max_corner b1))
                  (get0 (min_corner b2)) (get0 (max_corner b2)) then true
  else disjoint_dim (get1 (min_corner b1)) (get1 (max_corner b1))
                    (get1 (min_corner b2)) (get1 (max_corner b2)).

Definition bg_intersects (b1 b2 : box_t) : bool := negb (bg_disjoint b1 b2).

(** ** [hasOverlap] (Source.cpp 24-31, main.cpp 21-28) *)

Fixpoint hasOverlap (candidate : box_t) (placed_labels : list labeled_point)
  : bool :=
  match placed_labels with
  | [] => false
  | placed :: rest =>
      if bg_intersects candidate (label_box placed) then true
      else hasOverlap candidate rest
  end.

(** ** The placement loop

    The two programs run the same loop over different constants, so the
    loop is written once over [label_width], [label_height] and
    [offsets]. *)
Section PlacementLoop.

Variables label_width label_height : float.
Variable offsets : list (float * float).

(** Body of the inner loop up to the overlap test: the candidate box of
    point [pt] at one offset. *)
Definition candidate_box_at (pt : point_t) (off : float * float) : box_t :=
  let '(offset_x, offset_y) := off in
  let corner1 := mk_point (get0 pt + offset_x) (get1 pt + offset_y) in
  let corner2 :=
    mk_point (get0 corner1 + label_width) (get1 corner1 + label_height) in
  mk_box corner1 corner2.

(** The inner [for] with its [break]: the first candidate that overlaps
    nothing in [result], if any. *)
Fixpoint try_offsets (pt : point_t) (label_str : string)
    (result : list labeled_point) (offs : list (float * float))
  : option labeled_point :=
  match offs with
  | [] => None
  | off :: rest =>
      let candidate_box := candidate_box_at pt off in
      if negb (hasOverlap candidate_box result)
      then Some (mk_labeled_point pt label_str candidate_box)
      else try_offsets pt label_str result rest
  end.

(** One iteration of the outer loop. *)
Definition place_one (result : list labeled_point) (entry : input_point)
  : list labeled_point :=
  let '(pt, label_str) := entry in
  match try_offsets pt label_str result offsets with
  | Some successfully_placed => result ++ [successfully_placed]
  | None => result
  end.

(** The outer loop started from an arbitrary [result]. *)
Definition place_from (result : list labeled_point)
    (input_points : list input_point) : list labeled_point :=
  fold_left place_one input_points result.

Definition placeLabels_with (input_points : list input_point)
  : list labeled_point :=
  place_from [] input_points.

(** The candidate boxes of a point, in offset order. *)
Definition candidates (pt : point_t) : list box_t :=
  map (candidate_box_at pt) offsets.

(** An entry whose box is a candidate box of its own point. *)
Definition at_candidate (lp : labeled_point) : Prop :=
  exists off, In off offsets /\ label_box lp = candidate_box_at (point lp) off.

End PlacementLoop.

(** Pairwise disjointness of the boxes of a result list, by position. *)
Definition pairwise_disjoint (l : list labeled_point) : Prop :=
  forall i j a b, i <> j -> l !! i = Some a -> l !! j = Some b ->
    bg_intersects (label_box a) (label_box b) = false.

(** ** Source.cpp *)
Module Source.

Definition label_width : float := 6.0.
Definition label_height : float := 2.0.

(** TR, TL, BR, BL. *)
Definition offsets : list (float * float) :=
  [ (1, 1);
    (-1 - label_width, 1);
    (1, -1 - label_height);
    (-1 - label_width, -1 - label_height) ].

Definition placeLabels : list input_point -> list labeled_point :=
  placeLabels_with label_width label_height offsets.

(** The sample data of [main]. *)
Definition points : list input_point :=
  [ (mk_point 1.0 1.0, "Label A"%string);
    (mk_point 5.0 5.0, "Label B"%string);
    (mk_point 3.0 8.0, "Label C"%string);
    (mk_point 8.0 2.0, "Very Long Label D"%string);
    (mk_point 2.0 2.0, "Label E"%string) ].

End Source.

(** ** main.cpp *)
Module Main.

Definition label_width : float := 0.4.
Definition label_height : float := 0.2.

Definition offsets : list (float * float) :=
  [ (0.2, 0.2);
    (-0.2 - label_width, 0.2);
    (0.2, -0.2 - label_height);
    (-0.2 - label_width, -0.2 - label_height) ].

Definition placeLabels : list input_point -> list labeled_point :=
  placeLabels_with label_width label_height offsets.

(** The sample data of [main]. *)
Definition points : list input_point :=
  [ (mk_point 1.0 1.0, "A"%string);
    (mk_point 1.5 1.2, "B"%string);
    (mk_point 2.0 0.8, "C"%string);
    (mk_point 4.0 3.0, "D"%string);
    (mk_point 4.5 3.5, "E"%string);
    (mk_point 3.8 3.8, "F"%string);
    (mk_point 2.0 4.0, "G"%string);
    (mk_point 2.5 4.5, "H"%string);
    (mk_point 5.5 1.0, "I"%string);
    (mk_point 1.0 5.0, "J"%string) ].

End Main.

(** ** The two programs side by side

    Each translation unit has its own [placeLabels]; [placeLabels prog]
    is the one of [prog]. *)
Inductive program : Type := Source_cpp | main_cpp.

Definition label_width (prog : program) : float :=
  match prog with
  | Source_cpp => Source.label_width
  | main_cpp => Main.label_width
  end.

Definition label_height (prog : program) : float :=
  match prog with
  | Source_cpp => Source.label_height
  | main_cpp => Main.label_height
  end.

Definition offsets (prog : program) : list (float * float) :=
  match prog with
  | Source_cpp => Source.offsets
  | main_cpp => Main.offsets
  end.

Definition placeLabels (prog : program)
  : list input_point -> list labeled_point :=
  match prog with
  | Source_cpp => Source.placeLabels
  | main_cpp => Main.placeLabels
  end.

(** The candidate boxes [placeLabels prog] generates for a point. *)
Definition candidate_boxes (prog : program) (pt : point_t) : list box_t :=
  candidates (label_width prog) (label_height prog) (offsets prog) pt.

(** ** Reference predicates for the overlap test *)

(** The specification's wording of overlap (section 4.2): the projections
    of the two boxes meet in more than a point on both axes; boxes that
    only touch are not counted. *)
Definition overlap_positive (b1 b2 : box_t) : bool :=
  (get0 (min_corner b1) <? get0 (max_corner b2)) &&
  (get0 (min_corner b2) <? get0 (max_corner b1)) &&
  (get1 (min_corner b1) <? get1 (max_corner b2)) &&
  (get1 (min_corner b2) <? get1 (max_corner b1)).

(** Closed-interval intersection: on neither axis does one box end strictly
    before the other begins. *)
Definition projections_meet (b1 b2 : box_t) : Prop :=
  (get0 (max_corner b1) <? get0 (min_corner b2)) = false /\
  (get0 (max_corner b2) <? get0 (min_corner b1)) = false /\
  (get1 (max_corner b1) <? get1 (min_corner b2)) = false /\
  (get1 (max_corner b2) <? get1 (min_corner b1)) = false.

(** The specification's wording of the candidate box (section 4.1): one
    corner at the point shifted by the offset, the opposite corner that
    corner shifted by the label size. *)
Definition candidate_of_offset (w h : float) (pt : point_t) (dx dy : float)
  : box_t :=
  mk_box (mk_point (get0 pt + dx) (get1 pt + dy))
         (mk_point (get0 pt + dx + w) (get1 pt + dy + h)).

(** [x == x], which fails for a NaN only. *)
Definition is_number (x : float) : bool := x =? x.

(** [min_corner] and [max_corner] are the right way round: on neither axis
    is [max_corner] below [min_corner].  For coordinates that are numbers
    this says that [min_corner] holds the smaller and [max_corner] the
    larger value ([box_ordered_leb] below); a NaN compares below
    nothing. *)
Definition box_ordered (b : box_t) : Prop :=
  (get0 (max_corner b) <? get0 (min_corner b)) = false /\
  (get1 (max_corner b) <? get1 (min_corner b)) = false.

(** [max_corner] minus [min_corner], per axis. *)
Definition box_width (b : box_t) : float :=
  get0 (max_corner b) - get0 (min_corner b).
Definition box_height (b : box_t) : float :=
  get1 (max_corner b) - get1 (min_corner b).

(** Two unit squares that share the edge [x = 1]. *)
Definition unit_square_at_0 : box_t := mk_box (mk_point 0 0) (mk_point 1 1).
Definition unit_square_at_1 : box_t := mk_box (mk_point 1 0) (mk_point 2 1).

(** ** Inputs used below *)

(** Four labels at the origin, one for each corner, a fifth point at the
    origin, and a point far from all of them. *)
Definition origin : point_t := mk_point 0 0.

Definition four_at_origin : list input_point :=
  [ (origin, "A"%string); (origin, "B"%string);
    (origin, "C"%string); (origin, "D"%string) ].

Definition far_point : input_point := (mk_point 20 20, "F"%string).

(** Two points so far out that adding an offset or a label size to their
    coordinates changes nothing: doubles near 1e17 are 16 apart. *)
Definition remote_A : input_point := (mk_point 1e17 1e17, "A"%string).
Definition remote_B : input_point := (mk_point 1e17 1e17, "B"%string).

(** ** The loop as a transition system

    The same two loops, one rule per way an iteration can go. *)
Section Executions.

Variables label_width label_height : float.
Variable offsets : list (float * float).

(** [tried pt s result offs r]: walking [offs] for point [pt] against
    [result] ends with [r]. *)
Inductive tried (pt : point_t) (label_str : string)
    (result : list labeled_point)
  : list (float * float) -> option labeled_point -> Prop :=
| tried_exhausted : tried pt label_str result [] None
| tried_accept off rest :
    hasOverlap (candidate_box_at label_width label_height pt off) result
    = false ->
    tried pt label_str result (off :: rest)
      (Some (mk_labeled_point pt label_str
               (candidate_box_at label_width label_height pt off)))
| tried_next off rest r :
    hasOverlap (candidate_box_at label_width label_height pt off) result
    = true ->
    tried pt label_str result rest r ->
    tried pt label_str result (off :: rest) r.

(** [exec result input final]: the outer loop, entered with [result] and
    [input] still to walk, returns [final]. *)
Inductive exec (result : list labeled_point)
  : list input_point -> list labeled_point -> Prop :=
| exec_return : exec result [] result
| exec_placed pt label_str rest lp final :
    tried pt label_str result offsets (Some lp) ->
    exec (result ++ [lp]) rest final ->
    exec result ((pt, label_str) :: rest) final
| exec_unlabeled pt label_str rest final :
    tried pt label_str result offsets None ->
    exec result rest final ->
    exec result ((pt, label_str) :: rest) final.

End Executions.

(** A complete run of [placeLabels prog] on [input] returning [final]. *)
Definition runs (prog : program) (input : list input_point)
    (final : list labeled_point) : Prop :=
  exec (label_width prog) (label_height prog) (offsets prog) [] input final.

(** ** Rounding in [SpecFloat]

    What [binary_round_aux] returns once the rounded mantissa [m1] at
    exponent [f] is known: zero, the double [m1 * 2^f], the next binade
    when [m1] has reached [2^53], or an infinity past the largest
    exponent. *)
Definition rounded (s : bool) (m1 f : Z) : spec_float :=
  if (m1 =? 0)%Z then S754_zero s
  else if (m1 <? 2 ^ 53)%Z then
    if (f <=? 971)%Z then S754_finite s (Z.to_pos m1) f else S754_infinity s
  else
    if (f + 1 <=? 971)%Z then S754_finite s (2 ^ 52)%positive (f + 1)
    else S754_infinity s.

(** ** What the drawing code reads off a result *)

(** Where a label went: its point and its box, without the text. *)
Definition placement (lp : labeled_point) : point_t * box_t :=
  (point lp, label_box lp).

(** The label an entry gets when it is given the candidate at offset
    [(dx, dy)]. *)
Definition labelled_at (prog : program) (dx dy : float)
    (entry : input_point) : labeled_point :=
  mk_labeled_point (fst entry) (snd entry)
    (candidate_of_offset (label_width prog) (label_height prog)
       (fst entry) dx dy).

(** ** Reporting the unlabeled points (main.cpp 140-153 and 213-225)

    Both [main] and [visualizeWithOpenCV] walk all input points and, for
    each, search the placed labels for one whose point [bg::equals] it.
    [bg::equals] on points is Boost.Geometry's and is taken as a
    parameter. *)
Section Report.

Variable bg_equals : point_t -> point_t -> bool.

(** The inner loop with its [break]: the flag [has_label]. *)
Fixpoint has_label (placed_labels : list labeled_point) (pt : point_t)
  : bool :=
  match placed_labels with
  | [] => false
  | lp :: rest =>
      if bg_equals (point lp) pt then true else has_label rest pt
  end.

(** The outer loop: the entries reported with "NO LABEL" (drawn in red),
    in input order. *)
Fixpoint unlabeled_points (placed_labels : list labeled_point)
    (all_points : list input_point) : list input_point :=
  match all_points with
  | [] => []
  | point_pair :: rest =>
      if negb (has_label placed_labels (fst point_pair))
      then point_pair :: unlabeled_points placed_labels rest
      else unlabeled_points placed_labels rest
  end.

End Report.

(** ** Drawing coordinates (main.cpp 74-86) *)

(** [int]: 32 bits, two's complement.  Arithmetic that leaves the range,
    and conversions that do, are undefined: [None]. *)
Definition int_min : Z := (- 2 ^ 31)%Z.
Definition int_max : Z := (2 ^ 31 - 1)%Z.

Definition in_int (z : Z) : bool := ((int_min <=? z) && (z <=? int_max))%Z.

Definition int_sub (a b : Z) : option Z :=
  if in_int (a - b) then Some (a - b)%Z else None.

(** The value of a double with its fraction dropped, when it has one that
    fits an [int]. *)
Definition trunc_int (x : spec_float) : option Z :=
  match x with
  | S754_zero _ => Some 0%Z
  | S754_finite s m e =>
      let magnitude := Z.shiftl (Z.pos m) e in
      let t := if s then (- magnitude)%Z else magnitude in
      if in_int t then Some t else None
  | S754_infinity _ | S754_nan => None
  end.

(** [static_cast<int>(d)]. *)
Definition static_cast_int (d : float) : option Z := trunc_int (Prim2SF d).

(** [cv::Point]: two [int]s. *)
Record cv_Point : Type := mk_cv_Point { cv_x : Z; cv_y : Z }.

(** [cv::Rect]: corner, width and height. *)
Record cv_Rect : Type := mk_cv_Rect {
  rect_x : Z;
  rect_y : Z;
  rect_width : Z;
  rect_height : Z
}.

(** [cv::Rect(pt1, pt2)], OpenCV's constructor from two corners, which
    are taken in any order:
    [x = min(pt1.x, pt2.x)], [y = min(pt1.y, pt2.y)],
    [width = max(pt1.x, pt2.x) - x], [height = max(pt1.y, pt2.y) - y]. *)
Definition cv_Rect_of_points (pt1 pt2 : cv_Point) : option cv_Rect :=
  let x := Z.min (cv_x pt1) (cv_x pt2) in
  let y := Z.min (cv_y pt1) (cv_y pt2) in
  width ← int_sub (Z.max (cv_x pt1) (cv_x pt2)) x;
  height ← int_sub (Z.max (cv_y pt1) (cv_y pt2)) y;
  Some (mk_cv_Rect x y width height).

(** [worldToImage] (main.cpp 75-79): scale, drop the fraction, and flip
    the second axis. *)
Definition worldToImage (world_point : point_t) (scale : float)
    (image_size : Z) : option cv_Point :=
  x ← static_cast_int (get0 world_point * scale);
  flipped ← static_cast_int (get1 world_point * scale);
  y ← int_sub image_size flipped;
  Some (mk_cv_Point x y).

(** [worldBoxToImageRect] (main.cpp 82-86). *)
Definition worldBoxToImageRect (box : box_t) (scale : float)
    (image_size : Z) : option cv_Rect :=
  top_left ← worldToImage (min_corner box) scale image_size;
  bottom_right ← worldToImage (max_corner box) scale image_size;
  cv_Rect_of_points top_left bottom_right.

(** The constants [visualizeWithOpenCV] passes (main.cpp 91-92). *)
Definition IMAGE_SIZE : Z := 600%Z.
Definition SCALE : float := 80.0.

(** The world coordinates that fit the image: from 0 to 600 / 80. *)
Definition on_canvas (p : point_t) : Prop :=
  (0 <=? get0 p) = true /\ (get0 p <=? 7.5) = true /\
  (0 <=? get1 p) = true /\ (get1 p <=? 7.5) = true.

(** [std::isfinite(x)]: neither a NaN nor an infinity. *)
Definition is_finite (x : float) : bool := abs x <? infinity.

(** Equality of both coordinates under [==], used to instantiate
    [bg_equals] in examples. *)
Definition same_coordinates (p q : point_t) : bool :=
  (get0 p =? get0 q) && (get1 p =? get1 q).

(** * Properties *)

(** ** Comparison of doubles *)

Lemma SFcompare_antisym (x y : spec_float) :
  SFcompare y x = option_map CompOpp (SFcompare x y).
Proof.
  destruct x as [sx|sx| |sx mx ex], y as [sy|sy| |sy my ey]; simpl;
    try reflexivity; try (destruct sx; reflexivity);
    try (destruct sy; reflexivity); try (destruct sx, sy; reflexivity).
  change (Pos.compare_cont Eq my mx) with (Pos.compare my mx).
  change (Pos.compare_cont Eq mx my) with (Pos.compare mx my).
  destruct sx, sy; simpl; try reflexivity;
    rewrite (Z.compare_antisym ex ey), (Pos.compare_antisym mx my);
    destruct (ex ?= ey)%Z; simpl; rewrite ?CompOpp_involutive; reflexivity.
Qed.

Lemma ltb_asym (x y : float) : (x <? y) = true -> (y <? x) = false.
Proof.
  rewrite !ltb_spec. unfold SFltb. rewrite (SFcompare_antisym (Prim2SF x)).
  destruct (SFcompare (Prim2SF x) (Prim2SF y)) as [[]|]; simpl; congruence.
Qed.

Lemma SFcompare_numbers (x y : spec_float) :
  SFeqb x x = true -> SFeqb y y = true -> exists c, SFcompare x y = Some c.
Proof.
  destruct x as [sx|sx| |sx mx ex], y as [sy|sy| |sy my ey];
    cbn [SFeqb SFcompare]; try discriminate; eauto.
Qed.

(** Between numbers, "not above" is "at most". *)
Lemma ltb_false_leb (x y : float) :
  is_number x = true -> is_number y = true ->
  (y <? x) = false -> (x <=? y) = true.
Proof.
  unfold is_number.
  rewrite !FloatAxioms.eqb_spec, FloatAxioms.ltb_spec, FloatAxioms.leb_spec.
  intros Hx Hy. destruct (SFcompare_numbers _ _ Hx Hy) as [c Hc].
  unfold SFltb, SFleb. rewrite (SFcompare_antisym (Prim2SF x)), Hc.
  by destruct c.
Qed.

(** ** Adding a positive double

    [SpecFloat] specifies the primitive operations; the facts below follow
    its definitions of rounding for binary64. *)
Section Binary64.

#[local] Open Scope Z_scope.

Lemma fexp_eq (e : Z) : fexp prec emax e = Z.max (e - 53) (-1074).
Proof. reflexivity. Qed.

Lemma digits2_pos_size (m : positive) : digits2_pos m = Pos.size m.
Proof. induction m; simpl; congruence. Qed.

Lemma digits2_pos_bounds (m : positive) :
  2 ^ (Z.pos (digits2_pos m) - 1) <= Z.pos m < 2 ^ Z.pos (digits2_pos m).
Proof.
  rewrite digits2_pos_size. split.
  - pose proof (Pos.size_le m) as H.
    apply Pos2Z.pos_le_pos in H. rewrite Pos2Z.inj_pow in H.
    replace (Z.pos (Pos.size m)) with (Z.succ (Z.pos (Pos.size m) - 1)) in H by lia.
    rewrite Z.pow_succ_r in H by lia. lia.
  - pose proof (Pos.size_gt m) as H.
    apply Pos2Z.pos_lt_pos in H. by rewrite Pos2Z.inj_pow in H.
Qed.

Lemma pos_iter_xO (m d : positive) :
  Z.pos (Pos.iter xO m d) = Z.pos m * 2 ^ Z.pos d.
Proof.
  induction d as [|d IH] using Pos.peano_ind.
  - simpl. lia.
  - rewrite Pos.iter_succ, Pos2Z.inj_succ, Z.pow_succ_r by lia.
    rewrite Pos2Z.inj_xO, IH. lia.
Qed.

(** [shl_align] towards a smaller or equal exponent scales the mantissa. *)
Lemma shl_align_fst (m : positive) (e e' : Z) :
  e' <= e -> Z.pos (fst (shl_align m e e')) = Z.pos m * 2 ^ (e - e').
Proof.
  intros H. unfold shl_align.
  destruct (e' - e) as [|p|p] eqn:E; try lia; simpl.
  - replace (e - e') with 0 by lia. lia.
  - rewrite pos_iter_xO. f_equal. f_equal. lia.
Qed.

Lemma shr_1_m (mrs : shr_record) :
  0 <= shr_m mrs -> shr_m (shr_1 mrs) = shr_m mrs / 2.
Proof.
  destruct mrs as [m r s]. cbn [shr_m]. intros H.
  destruct m as [|[p|p|]|p]; cbn [shr_1 shr_m]; try lia; try reflexivity.
  - apply Z.div_unique with 1; lia.
  - apply Z.div_unique with 0; lia.
Qed.

Lemma pow2_xI (n : positive) : 2 ^ Z.pos n~1 = 2 * (2 ^ Z.pos n * 2 ^ Z.pos n).
Proof.
  replace (Z.pos n~1) with (1 + Z.pos n + Z.pos n) by lia.
  rewrite !Z.pow_add_r by lia. lia.
Qed.

Lemma pow2_xO (n : positive) : 2 ^ Z.pos n~0 = 2 ^ Z.pos n * 2 ^ Z.pos n.
Proof.
  replace (Z.pos n~0) with (Z.pos n + Z.pos n) by lia.
  rewrite !Z.pow_add_r by lia. lia.
Qed.

Lemma iter_pos_shr_1_m (n : positive) (mrs : shr_record) :
  0 <= shr_m mrs ->
  shr_m (SpecFloat.iter_pos shr_1 n mrs) = shr_m mrs / 2 ^ Z.pos n.
Proof.
  revert mrs. induction n as [n IH|n IH|]; intros mrs H;
    cbn [SpecFloat.iter_pos].
  - assert (0 <= shr_m (shr_1 mrs))
      by (rewrite shr_1_m by done; apply Z.div_pos; lia).
    assert (0 <= shr_m (SpecFloat.iter_pos shr_1 n (shr_1 mrs)))
      by (rewrite IH by done; apply Z.div_pos; lia).
    rewrite !IH, shr_1_m by done.
    rewrite !Z.div_div by lia. by rewrite pow2_xI.
  - assert (0 <= shr_m (SpecFloat.iter_pos shr_1 n mrs))
      by (rewrite IH by done; apply Z.div_pos; lia).
    rewrite !IH by done.
    rewrite !Z.div_div by lia. by rewrite pow2_xO.
  - rewrite shr_1_m by done. reflexivity.
Qed.

(** The mantissa and exponent [shr] leaves. *)
Lemma shr_m_e (mrs : shr_record) (e n : Z) :
  0 <= shr_m mrs ->
  shr_m (fst (shr mrs e n)) = shr_m mrs / 2 ^ Z.max 0 n /\
  snd (shr mrs e n) = e + Z.max 0 n.
Proof.
  intros H. destruct n as [|p|p]; cbn [shr fst snd].
  - change (Z.max 0 0) with 0. rewrite Z.div_1_r. lia.
  - rewrite iter_pos_shr_1_m by done.
    replace (Z.max 0 (Z.pos p)) with (Z.pos p) by lia. done.
  - replace (Z.max 0 (Z.neg p)) with 0 by lia. rewrite Z.div_1_r. lia.
Qed.

Lemma round_nearest_even_range (q : Z) (l : location) :
  q <= round_nearest_even q l <= q + 1.
Proof. destruct l as [|[]]; simpl; try lia. destruct (Z.even q); lia. Qed.

Lemma shr_record_of_loc_m (m : Z) (l : location) :
  shr_m (shr_record_of_loc m l) = m.
Proof. by destruct l as [|[]]. Qed.

Lemma Zdigits2_bounds (m : Z) :
  0 < m -> 2 ^ (Zdigits2 m - 1) <= m < 2 ^ Zdigits2 m.
Proof. destruct m as [|p|p]; try lia. intros _. apply digits2_pos_bounds. Qed.

Lemma pow2_lt_inv (a b : Z) : 0 <= b -> 2 ^ a < 2 ^ b -> a < b.
Proof. intros Hb H. apply (Z.pow_lt_mono_r_iff 2); lia. Qed.

Lemma binary_round_aux_shape (s : bool) (mx ex : Z) (lx : location) :
  0 < mx ->
  ex <= fexp prec emax (Zdigits2 mx + ex) ->
  exists m1,
    mx / 2 ^ (fexp prec emax (Zdigits2 mx + ex) - ex) <= m1
      <= mx / 2 ^ (fexp prec emax (Zdigits2 mx + ex) - ex) + 1 /\
    binary_round_aux prec emax s mx ex lx
    = rounded s m1 (fexp prec emax (Zdigits2 mx + ex)).
Proof.
  intros Hmx Hex. set (f := fexp prec emax (Zdigits2 mx + ex)) in *.
  assert (Hf : f = Z.max (Zdigits2 mx + ex - 53) (-1074)) by apply fexp_eq.
  unfold binary_round_aux, shr_fexp. fold f.
  destruct (shr (shr_record_of_loc mx lx) ex (f - ex)) as [mrs' e'] eqn:E1.
  pose proof (shr_m_e (shr_record_of_loc mx lx) ex (f - ex)) as [Hq He].
  { rewrite shr_record_of_loc_m. lia. }
  rewrite E1 in Hq, He. rewrite shr_record_of_loc_m in Hq.
  cbn [fst snd] in Hq, He.
  replace (Z.max 0 (f - ex)) with (f - ex) in Hq, He by lia.
  replace (ex + (f - ex)) with f in He by lia. subst e'.
  set (q := mx / 2 ^ (f - ex)) in *.
  set (m1 := round_nearest_even (shr_m mrs') (loc_of_shr_record mrs')).
  pose proof (round_nearest_even_range (shr_m mrs') (loc_of_shr_record mrs'))
    as Hm1. fold m1 in Hm1. rewrite Hq in Hm1.
  assert (Hq0 : 0 <= q) by (apply Z.div_pos; lia).
  assert (Hq53 : q < 2 ^ 53).
  { apply Z.div_lt_upper_bound; [lia|].
    rewrite <- Z.pow_add_r by lia.
    pose proof (Zdigits2_bounds mx Hmx) as [_ Hd].
    eapply Z.lt_le_trans; [exact Hd|]. apply Z.pow_le_mono_r; lia. }
  exists m1. split; [exact Hm1|].
  destruct (shr (shr_record_of_loc m1 loc_Exact) f
              (fexp prec emax (Zdigits2 m1 + f) - f)) as [mrs'' e''] eqn:E2.
  pose proof (shr_m_e (shr_record_of_loc m1 loc_Exact) f
                (fexp prec emax (Zdigits2 m1 + f) - f)) as [Hm2 He2].
  { rewrite shr_record_of_loc_m. lia. }
  rewrite E2 in Hm2, He2. rewrite shr_record_of_loc_m in Hm2.
  cbn [fst snd] in Hm2, He2.
  rewrite fexp_eq in Hm2, He2.
  unfold rounded.
  destruct (Z.eqb_spec m1 0) as [Hz|Hnz].
  - rewrite Hz in Hm2. rewrite Z.div_0_l in Hm2 by lia. by rewrite Hm2.
  - destruct (Z.ltb_spec m1 (2 ^ 53)) as [Hlt|Hge].
    + assert (Zdigits2 m1 <= 53).
      { pose proof (Zdigits2_bounds m1 ltac:(lia)) as [Hd _].
        assert (2 ^ (Zdigits2 m1 - 1) < 2 ^ 53) as Hp by lia.
        apply pow2_lt_inv in Hp; lia. }
      replace (Z.max 0 (Z.max (Zdigits2 m1 + f - 53) (-1074) - f)) with 0
        in Hm2, He2 by lia.
      rewrite Z.div_1_r in Hm2. rewrite Z.add_0_r in He2. subst e''.
      rewrite Hm2. destruct m1 as [|p|p]; try lia. reflexivity.
    + assert (m1 = 2 ^ 53) as -> by lia.
      change (Zdigits2 (2 ^ 53)) with 54 in Hm2, He2.
      replace (Z.max 0 (Z.max (54 + f - 53) (-1074) - f)) with 1
        in Hm2, He2 by lia.
      subst e''. rewrite Hm2. reflexivity.
Qed.

Lemma digits2_pos_iter_xO (m d : positive) :
  digits2_pos (Pos.iter xO m d) = (digits2_pos m + d)%positive.
Proof.
  induction d as [|d IH] using Pos.peano_ind.
  - simpl. lia.
  - rewrite Pos.iter_succ. cbn [digits2_pos]. rewrite IH. lia.
Qed.

(** [binary_round]: the mantissa is brought to the exponent [f] its size
    calls for, by an exact shift to the left or a rounding shift to the
    right, and ends at the quotient [q] or one above. *)
Lemma binary_round_shape (s : bool) (m : positive) (e : Z) :
  exists m1,
    Z.pos m * 2 ^ (e - Z.min e (fexp prec emax (Z.pos (digits2_pos m) + e)))
      / 2 ^ (fexp prec emax (Z.pos (digits2_pos m) + e)
             - Z.min e (fexp prec emax (Z.pos (digits2_pos m) + e))) <= m1
    <= Z.pos m * 2 ^ (e - Z.min e (fexp prec emax (Z.pos (digits2_pos m) + e)))
      / 2 ^ (fexp prec emax (Z.pos (digits2_pos m) + e)
             - Z.min e (fexp prec emax (Z.pos (digits2_pos m) + e))) + 1 /\
    binary_round prec emax s m e
    = rounded s m1 (fexp prec emax (Z.pos (digits2_pos m) + e)).
Proof.
  set (f := fexp prec emax (Z.pos (digits2_pos m) + e)).
  unfold binary_round. fold f.
  destruct (shl_align m e f) as [mz ez] eqn:E.
  assert (Hmz : Z.pos mz = Z.pos m * 2 ^ (e - Z.min e f) /\ ez = Z.min e f /\
                Z.pos (digits2_pos mz) + ez = Z.pos (digits2_pos m) + e).
  { unfold shl_align in E. destruct (f - e) as [|p|p] eqn:Efe;
      injection E as <- <-.
    - replace (Z.min e f) with e by lia. rewrite Z.sub_diag. lia.
    - replace (Z.min e f) with e by lia. rewrite Z.sub_diag. lia.
    - replace (Z.min e f) with f by lia.
      rewrite pos_iter_xO, digits2_pos_iter_xO.
      replace (e - f) with (Z.pos p) by lia. lia. }
  destruct Hmz as (Hmz & -> & Hd).
  destruct (binary_round_aux_shape s (Z.pos mz) (Z.min e f) loc_Exact)
    as (m1 & Hm1 & Hr).
  { lia. }
  { cbn [Zdigits2]. rewrite Hd. fold f. lia. }
  cbn [Zdigits2] in Hm1, Hr. rewrite Hd in Hm1, Hr. fold f in Hm1, Hr.
  exists m1. rewrite <- Hmz. split; [exact Hm1 | exact Hr].
Qed.

Lemma SFltb_pos_pos (m1 : positive) (e1 : Z) (m2 : positive) (e2 : Z) :
  e2 < e1 \/ (e1 = e2 /\ Z.pos m2 <= Z.pos m1) ->
  SFltb (S754_finite false m1 e1) (S754_finite false m2 e2) = false.
Proof.
  unfold SFltb, SFcompare.
  change (Pos.compare_cont Eq m1 m2) with (Pos.compare m1 m2).
  intros [H | [-> H]].
  - apply Z.lt_gt in H. by rewrite H.
  - rewrite Z.compare_refl.
    destruct (Pos.compare_spec m1 m2); try reflexivity. lia.
Qed.

Lemma SFltb_neg_neg (m1 : positive) (e1 : Z) (m2 : positive) (e2 : Z) :
  e1 < e2 \/ (e1 = e2 /\ Z.pos m1 <= Z.pos m2) ->
  SFltb (S754_finite true m1 e1) (S754_finite true m2 e2) = false.
Proof.
  unfold SFltb, SFcompare.
  change (Pos.compare_cont Eq m1 m2) with (Pos.compare m1 m2).
  intros [H | [-> H]].
  - by rewrite H.
  - rewrite Z.compare_refl.
    destruct (Pos.compare_spec m1 m2); try reflexivity. lia.
Qed.

(** A rounded positive value against a positive double below it. *)
Lemma rounded_pos_not_lt (m1 f : Z) (ma : positive) (ea : Z) :
  0 < m1 -> ea <= f -> (f = ea -> Z.pos ma <= m1) ->
  SFltb (rounded false m1 f) (S754_finite false ma ea) = false.
Proof.
  intros Hm1 Hf Hsame. unfold rounded.
  destruct (Z.eqb_spec m1 0); [lia|].
  destruct (m1 <? 2 ^ 53).
  - destruct (f <=? 971); [|reflexivity].
    apply SFltb_pos_pos. destruct (Z.eq_dec f ea) as [->|]; [right|left; lia].
    split; [reflexivity|]. rewrite Z2Pos.id by lia. auto.
  - destruct (f + 1 <=? 971); [|reflexivity].
    apply SFltb_pos_pos. left. lia.
Qed.

(** A rounded negative value against a negative double below it. *)
Lemma rounded_neg_not_lt (m1 f : Z) (ma : positive) (ea : Z) :
  0 <= m1 -> f <= ea -> ea <= 971 -> Z.pos ma < 2 ^ 53 ->
  m1 <= Z.pos ma * 2 ^ (ea - f) ->
  SFltb (rounded true m1 f) (S754_finite true ma ea) = false.
Proof.
  intros Hm1 Hf Hea Hma Hle. unfold rounded.
  destruct (Z.eqb_spec m1 0); [reflexivity|].
  destruct (Z.ltb_spec m1 (2 ^ 53)) as [Hlt|Hge].
  - destruct (Z.leb_spec f 971); [|lia].
    apply SFltb_neg_neg. destruct (Z.eq_dec f ea) as [->|]; [right|left; lia].
    split; [reflexivity|]. rewrite Z2Pos.id by lia.
    rewrite Z.sub_diag in Hle. lia.
  - assert (f < ea).
    { destruct (Z.eq_dec f ea) as [->|]; [|lia].
      rewrite Z.sub_diag in Hle. lia. }
    destruct (Z.leb_spec (f + 1) 971); [|lia].
    apply SFltb_neg_neg.
    destruct (Z.eq_dec (f + 1) ea) as [<-|]; [right|left; lia].
    split; [reflexivity|].
    replace (f + 1 - f) with 1 in Hle by lia.
    change (Z.pos (2 ^ 52)) with (2 ^ 52). change (2 ^ 53) with (2 * 2 ^ 52) in Hge.
    lia.
Qed.

Lemma rounded_nonneg_vs_neg (m1 f : Z) (ma : positive) (ea : Z) :
  SFltb (rounded false m1 f) (S754_finite true ma ea) = false.
Proof.
  unfold rounded.
  repeat match goal with |- context [if ?c then _ else _] => destruct c end;
    reflexivity.
Qed.

Lemma bounded_canonical (m : positive) (e : Z) :
  bounded prec emax m e = true ->
  e = Z.max (Z.pos (digits2_pos m) + e - 53) (-1074) /\ e <= 971.
Proof.
  unfold bounded, canonical_mantissa. rewrite andb_true_iff, fexp_eq.
  intros [H1 H2]. apply Z.eqb_eq in H1. apply Z.leb_le in H2.
  change (emax - prec) with 971 in H2. lia.
Qed.

Lemma pow2_pos (k : Z) : 0 <= k -> 0 < 2 ^ k.
Proof. intros. apply Z.pow_pos_nonneg; lia. Qed.

(** Adding a positive finite double never gives less than one started
    with, in the order [<] computes. *)
Lemma SFadd_pos_not_lt (sa : bool) (ma : positive) (ea : Z)
    (mw : positive) (ew : Z) :
  bounded prec emax ma ea = true ->
  SFltb (SFadd prec emax (S754_finite sa ma ea) (S754_finite false mw ew))
        (S754_finite sa ma ea) = false.
Proof.
  intros Hb. apply bounded_canonical in Hb as [Hcan Hea].
  pose proof (digits2_pos_bounds ma) as [HdA1 HdA2].
  set (dA := Z.pos (digits2_pos ma)) in *.
  assert (HdA : dA <= 53) by lia.
  assert (Hma53 : Z.pos ma < 2 ^ 53).
  { eapply Z.lt_le_trans; [exact HdA2|]. apply Z.pow_le_mono_r; lia. }
  cbn [SFadd]. set (ez := Z.min ea ew).
  pose proof (shl_align_fst ma ea ez ltac:(lia)) as HA.
  pose proof (shl_align_fst mw ew ez ltac:(lia)) as HW.
  set (a' := fst (shl_align ma ea ez)) in *.
  set (w' := fst (shl_align mw ew ez)) in *.
  set (k := ea - ez) in *.
  assert (Hk : 0 <= k) by lia.
  pose proof (pow2_pos k Hk) as Hpk.
  destruct sa; cbn [cond_Zopp].
  - (* a negative *)
    destruct (- Z.pos a' + Z.pos w') as [|m|m] eqn:Esum; cbn [binary_normalize].
    + reflexivity.
    + destruct (binary_round_shape false m ez) as (m1 & _ & ->).
      apply rounded_nonneg_vs_neg.
    + destruct (binary_round_shape true m ez) as (m1 & [Hq1 Hq2] & ->).
      pose proof (digits2_pos_bounds m) as [Hd1 Hd2].
      set (d := Z.pos (digits2_pos m)) in *.
      set (f := fexp prec emax (d + ez)) in *.
      assert (Hf : f = Z.max (d + ez - 53) (-1074)) by apply fexp_eq.
      assert (Hlt : Z.pos m < Z.pos ma * 2 ^ k) by lia.
      assert (Hd : d <= dA + k).
      { assert (2 ^ (d - 1) < 2 ^ (dA + k)) as Hp.
        { rewrite Z.pow_add_r by lia. nia. }
        apply pow2_lt_inv in Hp; lia. }
      assert (Hfe : f <= ea) by lia.
      set (b := Z.min ez f) in *.
      pose proof (pow2_pos (ez - b) ltac:(lia)) as Hp1.
      pose proof (pow2_pos (f - b) ltac:(lia)) as Hp2.
      apply rounded_neg_not_lt; try lia.
      * assert (0 <= Z.pos m * 2 ^ (ez - b) / 2 ^ (f - b)); [|lia].
        apply Z.div_pos; lia.
      * assert (Z.pos m * 2 ^ (ez - b) / 2 ^ (f - b)
                < Z.pos ma * 2 ^ (ea - f)); [|lia].
        apply Z.div_lt_upper_bound; [lia|].
        replace (2 ^ (f - b) * (Z.pos ma * 2 ^ (ea - f)))
          with (Z.pos ma * 2 ^ k * 2 ^ (ez - b)).
        { apply Z.mul_lt_mono_pos_r; lia. }
        rewrite <- !Z.mul_assoc, <- !Z.pow_add_r by lia.
        rewrite (Z.mul_comm (2 ^ _) (Z.pos ma * _)), <- Z.mul_assoc.
        rewrite <- Z.pow_add_r by lia. do 2 f_equal. lia.
  - (* a positive *)
    change (Z.pos a' + Z.pos w') with (Z.pos (a' + w')).
    cbn [binary_normalize].
    destruct (binary_round_shape false (a' + w') ez) as (m1 & [Hq1 Hq2] & ->).
    pose proof (digits2_pos_bounds (a' + w')) as [Hd1 Hd2].
    set (m := (a' + w')%positive) in *.
    set (d := Z.pos (digits2_pos m)) in *.
    set (f := fexp prec emax (d + ez)) in *.
    assert (Hf : f = Z.max (d + ez - 53) (-1074)) by apply fexp_eq.
    assert (Hge : Z.pos ma * 2 ^ k <= Z.pos m) by lia.
    assert (Hd : dA + k <= d).
    { assert (2 ^ (dA - 1 + k) < 2 ^ d) as Hp.
      { rewrite Z.pow_add_r by lia. nia. }
      apply pow2_lt_inv in Hp; lia. }
    assert (Hfe : ea <= f) by lia.
    replace (Z.min ez f) with ez in Hq1, Hq2 by lia.
    rewrite Z.sub_diag, Z.mul_1_r in Hq1, Hq2.
    pose proof (pow2_pos (f - ez) ltac:(lia)) as Hp2.
    destruct (Z.eq_dec f ea) as [Heq|Hne].
    + assert (Z.pos ma <= Z.pos m / 2 ^ (f - ez)).
      { apply Z.div_le_lower_bound; [lia|]. rewrite Heq. fold k. lia. }
      apply rounded_pos_not_lt; lia.
    + assert (f - ez = d - 53) as Hfd by lia.
      assert (2 ^ 52 <= Z.pos m / 2 ^ (f - ez)).
      { apply Z.div_le_lower_bound; [lia|]. rewrite Hfd.
        rewrite <- Z.pow_add_r by lia.
        replace (d - 53 + 52) with (d - 1) by lia. exact Hd1. }
      apply rounded_pos_not_lt; lia.
Qed.

End Binary64.

(** Adding a positive finite constant to a double never takes it down. *)
Lemma add_pos_not_below (a w : float) (mw : positive) (ew : Z) :
  Prim2SF w = S754_finite false mw ew ->
  (a + w <? a) = false.
Proof.
  intros Hw. rewrite ltb_spec, add_spec, Hw. unfold SF64add.
  pose proof (Prim2SF_valid a) as Hv.
  destruct (Prim2SF a) as [sa|sa| |sa ma ea].
  - reflexivity.
  - destruct sa; reflexivity.
  - reflexivity.
  - by apply SFadd_pos_not_lt.
Qed.

(** ** The overlap test *)

Lemma bg_intersects_sym (b1 b2 : box_t) :
  bg_intersects b1 b2 = bg_intersects b2 b1.
Proof.
  unfold bg_intersects, bg_disjoint, disjoint_dim, gtb.
  repeat match goal with |- context [?x <? ?y] => destruct (x <? y) end;
    reflexivity.
Qed.

(** What [bg_intersects] computes, comparison by comparison. *)
Lemma bg_intersects_true (b1 b2 : box_t) :
  bg_intersects b1 b2 = true <->
    (get0 (max_corner b1) <? get0 (min_corner b2)) = false /\
    (get0 (max_corner b2) <? get0 (min_corner b1)) = false /\
    (get1 (max_corner b1) <? get1 (min_corner b2)) = false /\
    (get1 (max_corner b2) <? get1 (min_corner b1)) = false.
Proof.
  unfold bg_intersects, bg_disjoint, disjoint_dim, gtb.
  repeat match goal with |- context [?x <? ?y] => destruct (x <? y) end;
    simpl; intuition congruence.
Qed.

Lemma hasOverlap_true (candidate : box_t) (placed_labels : list labeled_point) :
  hasOverlap candidate placed_labels = true <->
  exists placed, In placed placed_labels /\
                 bg_intersects candidate (label_box placed) = true.
Proof.
  induction placed_labels as [|p rest IH]; simpl.
  - split; [discriminate | intros (? & [] & _)].
  - destruct (bg_intersects candidate (label_box p)) eqn:E.
    + split; [intros _; exists p; auto | reflexivity].
    + rewrite IH. split.
      * intros (q & Hq & Hi). exists q; auto.
      * intros (q & [-> | Hq] & Hi); [congruence | exists q; auto].
Qed.

Lemma hasOverlap_false (candidate : box_t) (placed_labels : list labeled_point) :
  hasOverlap candidate placed_labels = false <->
  forall placed, In placed placed_labels ->
                 bg_intersects candidate (label_box placed) = false.
Proof.
  induction placed_labels as [|p rest IH]; simpl.
  - split; [intros _ ? [] | reflexivity].
  - destruct (bg_intersects candidate (label_box p)) eqn:E.
    + split; [discriminate | intros H; rewrite <- E; apply H; auto].
    + rewrite IH. split.
      * intros H q [<- | Hq]; auto.
      * intros H q Hq. apply H; auto.
Qed.

Lemma overlap_positive_intersects (b1 b2 : box_t) :
  overlap_positive b1 b2 = true -> bg_intersects b1 b2 = true.
Proof.
  unfold overlap_positive. rewrite !andb_true_iff.
  intros [[[H1 H2] H3] H4]. apply bg_intersects_true.
  repeat split; by apply ltb_asym.
Qed.

Lemma box_ordered_leb (b : box_t) :
  box_ordered b ->
  is_number (get0 (min_corner b)) = true ->
  is_number (get0 (max_corner b)) = true ->
  is_number (get1 (min_corner b)) = true ->
  is_number (get1 (max_corner b)) = true ->
  (get0 (min_corner b) <=? get0 (max_corner b)) = true /\
  (get1 (min_corner b) <=? get1 (max_corner b)) = true.
Proof. intros [H0 H1] ? ? ? ?. split; by apply ltb_false_leb. Qed.

(** C2, as stated, fails: the two unit squares below share the edge
    [x = 1] and nothing else, their projections on the first axis meet in a
    single point, and [hasOverlap] reports them as overlapping. *)
Lemma hasOverlap_touching_counterexample :
  get0 (max_corner unit_square_at_0) = get0 (min_corner unit_square_at_1) /\
  overlap_positive unit_square_at_0 unit_square_at_1 = false /\
  hasOverlap unit_square_at_0
    [mk_labeled_point (mk_point 1 0) "right" unit_square_at_1] = true.
Proof. repeat split; reflexivity. Qed.

(** C2, amended. [hasOverlap] answers [true] exactly when some placed box
    meets the candidate in the closed sense: on neither axis does one of
    the two end strictly before the other begins.  Boxes whose projections
    meet in more than a point on both axes are therefore reported, and so
    are boxes that only touch. *)
Theorem hasOverlap_closed_intersection (candidate : box_t)
    (placed_labels : list labeled_point) :
  (hasOverlap candidate placed_labels = true <->
   exists placed, In placed placed_labels /\
                  projections_meet candidate (label_box placed)) /\
  (forall placed, In placed placed_labels ->
     overlap_positive candidate (label_box placed) = true ->
     hasOverlap candidate placed_labels = true).
Proof.
  split.
  - rewrite hasOverlap_true. unfold projections_meet.
    split; intros (q & Hq & H); exists q; (split; [exact Hq|]);
      by apply bg_intersects_true.
  - intros q Hq H. apply hasOverlap_true. exists q.
    split; [exact Hq | by apply overlap_positive_intersects].
Qed.

(** ** The loop, for any constants *)
Section LoopFacts.

Variables label_width label_height : float.
Variable offsets : list (float * float).

#[local] Abbreviation try_offsets := (try_offsets label_width label_height).
#[local] Abbreviation candidate_box_at := (candidate_box_at label_width label_height).
#[local] Abbreviation place_one := (place_one label_width label_height offsets).
#[local] Abbreviation place_from := (place_from label_width label_height offsets).
#[local] Abbreviation placeLabels_with := (placeLabels_with label_width label_height offsets).
#[local] Abbreviation candidates := (candidates label_width label_height offsets).

Lemma try_offsets_Some pt label_str result offs lp :
  try_offsets pt label_str result offs = Some lp ->
  point lp = pt /\ label lp = label_str /\
  hasOverlap (label_box lp) result = false /\
  exists off, In off offs /\ label_box lp = candidate_box_at pt off.
Proof.
  induction offs as [|off rest IH]; simpl; [discriminate|].
  destruct (hasOverlap (candidate_box_at pt off) result) eqn:E; simpl.
  - intros H. destruct (IH H) as (? & ? & ? & o & ? & ?).
    repeat split; auto. exists o; auto.
  - intros [= <-]. simpl. repeat split; auto. exists off; auto.
Qed.

Lemma try_offsets_None pt label_str result offs :
  try_offsets pt label_str result offs = None <->
  Forall (fun off => hasOverlap (candidate_box_at pt off) result = true) offs.
Proof.
  induction offs as [|off rest IH]; simpl.
  - split; [constructor | reflexivity].
  - destruct (hasOverlap (candidate_box_at pt off) result) eqn:E; simpl.
    + rewrite IH. split; [constructor; auto | inversion 1; auto].
    + split; [discriminate | inversion 1; congruence].
Qed.

(** With nothing placed yet the first offset is taken. *)
Lemma try_offsets_empty pt label_str off rest :
  try_offsets pt label_str [] (off :: rest)
  = Some (mk_labeled_point pt label_str (candidate_box_at pt off)).
Proof. reflexivity. Qed.

Lemma place_from_app result l1 l2 :
  place_from result (l1 ++ l2) = place_from (place_from result l1) l2.
Proof. apply fold_left_app. Qed.

Lemma place_from_cons result e l :
  place_from result (e :: l) = place_from (place_one result e) l.
Proof. reflexivity. Qed.

(** An iteration leaves [result] alone or appends one entry to it. *)
Lemma place_one_cases result pt label_str :
  (place_one result (pt, label_str) = result /\
   try_offsets pt label_str result offsets = None) \/
  (exists lp, place_one result (pt, label_str) = result ++ [lp] /\
              try_offsets pt label_str result offsets = Some lp).
Proof.
  unfold place_one.
  destruct (try_offsets pt label_str result offsets) as [lp|];
    [right; exists lp | left]; auto.
Qed.

(** The loop only ever appends, and what it appends comes, in order, from
    the entries it walked. *)
Lemma place_from_appends result l :
  exists k, place_from result l = result ++ k /\
            map spec_of k `sublist_of` l.
Proof.
  revert result. induction l as [|[pt s] l IH]; intros result.
  - exists []. simpl. rewrite app_nil_r. split; [reflexivity | constructor].
  - rewrite place_from_cons.
    destruct (place_one_cases result pt s) as [[-> _] | (lp & -> & Hlp)].
    + destruct (IH result) as (k & -> & Hk).
      exists k. split; [reflexivity | by apply sublist_cons].
    + destruct (IH (result ++ [lp])) as (k & -> & Hk).
      apply try_offsets_Some in Hlp as (Hp & Hs & _).
      exists (lp :: k). split; [by rewrite <- app_assoc|].
      cbn [map]. unfold spec_of at 1. rewrite Hp, Hs. by apply sublist_skip.
Qed.

Lemma place_from_extends result l :
  result `prefix_of` place_from result l.
Proof. destruct (place_from_appends result l) as (k & -> & _). by exists k. Qed.

Lemma place_from_prefix result l1 l2 :
  place_from result l1 `prefix_of` place_from result (l1 ++ l2).
Proof. rewrite place_from_app. apply place_from_extends. Qed.

(** An entry all of whose candidates overlap is skipped. *)
Lemma place_one_dropped result pt label_str :
  Forall (fun c => hasOverlap c result = true) (candidates pt) ->
  place_one result (pt, label_str) = result.
Proof.
  intros H. unfold place_one.
  replace (try_offsets pt label_str result offsets) with (@None labeled_point);
    [reflexivity|].
  symmetry. apply try_offsets_None. unfold candidates in H.
  by rewrite Forall_map in H.
Qed.

Lemma pairwise_disjoint_nil : pairwise_disjoint [].
Proof. intros i j a b _ H. by rewrite lookup_nil in H. Qed.

Lemma pairwise_disjoint_snoc l lp :
  pairwise_disjoint l ->
  hasOverlap (label_box lp) l = false ->
  pairwise_disjoint (l ++ [lp]).
Proof.
  intros Hl Hlp i j a b Hij Hi Hj.
  assert (Hfree : forall q, q ∈ l ->
            bg_intersects (label_box lp) (label_box q) = false).
  { intros q Hq. eapply hasOverlap_false; [exact Hlp|]. by apply list_elem_of_In. }
  apply lookup_app_Some in Hi as [Hi | [Hi1 Hi2]];
    apply lookup_app_Some in Hj as [Hj | [Hj1 Hj2]].
  - eauto.
  - apply list_lookup_singleton_Some in Hj2 as [_ <-].
    rewrite bg_intersects_sym. apply Hfree. by eapply list_elem_of_lookup_2.
  - apply list_lookup_singleton_Some in Hi2 as [_ <-].
    apply Hfree. by eapply list_elem_of_lookup_2.
  - apply list_lookup_singleton_Some in Hi2 as [Hi2 _].
    apply list_lookup_singleton_Some in Hj2 as [Hj2 _]. lia.
Qed.

Lemma place_from_pairwise_disjoint result l :
  pairwise_disjoint result -> pairwise_disjoint (place_from result l).
Proof.
  revert result. induction l as [|[pt s] l IH]; intros result Hr; [exact Hr|].
  rewrite place_from_cons. apply IH.
  destruct (place_one_cases result pt s) as [[-> _] | (lp & -> & Hlp)];
    [exact Hr|].
  apply pairwise_disjoint_snoc; [exact Hr|].
  by apply try_offsets_Some in Hlp as (_ & _ & ? & _).
Qed.

Lemma place_from_at_candidate result l :
  Forall (at_candidate label_width label_height offsets) result ->
  Forall (at_candidate label_width label_height offsets) (place_from result l).
Proof.
  revert result. induction l as [|[pt s] l IH]; intros result Hr; [exact Hr|].
  rewrite place_from_cons. apply IH.
  destruct (place_one_cases result pt s) as [[-> _] | (lp & -> & Hlp)];
    [exact Hr|].
  apply Forall_app. split; [exact Hr|]. constructor; [|constructor].
  apply try_offsets_Some in Hlp as (Hp & _ & _ & off & Hin & Hbox).
  exists off. by rewrite Hp.
Qed.

(** *** Executions *)

#[local] Abbreviation tried := (tried label_width label_height).
#[local] Abbreviation exec := (exec label_width label_height offsets).

Lemma tried_try_offsets pt label_str result offs :
  tried pt label_str result offs (try_offsets pt label_str result offs).
Proof.
  induction offs as [|off rest IH]; simpl; [constructor|].
  destruct (hasOverlap (candidate_box_at pt off) result) eqn:E; simpl.
  - by apply tried_next.
  - by apply tried_accept.
Qed.

Lemma tried_deterministic pt label_str result offs r1 r2 :
  tried pt label_str result offs r1 ->
  tried pt label_str result offs r2 ->
  r1 = r2.
Proof.
  intros H1. revert r2.
  induction H1 as [|off rest Hfree|off rest r Hhit _ IH]; intros r2 H2;
    inversion H2; subst; try reflexivity; try congruence; auto.
Qed.

(** Every loop entered with [result] returns. *)
Lemma exec_place_from result input :
  exec result input (place_from result input).
Proof.
  revert result. induction input as [|[pt s] rest IH]; intros result.
  - constructor.
  - rewrite place_from_cons. unfold place_one.
    pose proof (tried_try_offsets pt s result offsets) as Ht.
    destruct (try_offsets pt s result offsets) as [lp|].
    + eapply exec_placed; [exact Ht | apply IH].
    + eapply exec_unlabeled; [exact Ht | apply IH].
Qed.

Lemma exec_deterministic result input final1 final2 :
  exec result input final1 -> exec result input final2 -> final1 = final2.
Proof.
  intros H1. revert final2.
  induction H1 as [result
                  |result pt s rest lp final Ht _ IH
                  |result pt s rest final Ht _ IH]; intros final2 H2.
  - by inversion H2.
  - inversion H2 as [|? ? ? lp' ? Ht' Hrest|? ? ? ? Ht' Hrest]; subst.
    + pose proof (tried_deterministic _ _ _ _ _ _ Ht Ht') as [= ->]. auto.
    + pose proof (tried_deterministic _ _ _ _ _ _ Ht Ht'). discriminate.
  - inversion H2 as [|? ? ? lp' ? Ht' Hrest|? ? ? ? Ht' Hrest]; subst.
    + pose proof (tried_deterministic _ _ _ _ _ _ Ht Ht'). discriminate.
    + auto.
Qed.

(** The first entry is always labelled when there is an offset to try. *)
Lemma try_offsets_empty_Some pt label_str offs :
  offs <> [] -> exists lp, try_offsets pt label_str [] offs = Some lp.
Proof. destruct offs as [|off rest]; [done | intros _; by eexists]. Qed.

Lemma place_from_nonempty e rest :
  offsets <> [] -> place_from [] (e :: rest) <> [].
Proof.
  intros Hoff. destruct e as [pt s]. rewrite place_from_cons.
  destruct (try_offsets_empty_Some pt s offsets Hoff) as [lp Hlp].
  destruct (place_one_cases [] pt s) as [[_ Hnone] | (lp' & -> & _)];
    [congruence|].
  intros H.
  pose proof (place_from_extends ([] ++ [lp']) rest) as [k Hk].
  rewrite H in Hk. discriminate.
Qed.

End LoopFacts.

(** ** The two programs *)

Lemma placeLabels_unfold (prog : program) :
  placeLabels prog
  = placeLabels_with (label_width prog) (label_height prog) (offsets prog).
Proof. destruct prog; reflexivity. Qed.

(** *** Sample runs *)

(** Source.cpp's [main]: all five points are labelled, the last one to the
    top left because [Label A] holds its top right. *)
Example source_sample_run :
  map (fun lp => (label lp, min_corner (label_box lp)))
      (placeLabels Source_cpp Source.points)
  = [ ("Label A"%string, mk_point 2 2);
      ("Label B"%string, mk_point 6 6);
      ("Label C"%string, mk_point 4 9);
      ("Very Long Label D"%string, mk_point 9 3);
      ("Label E"%string, mk_point (-5) 3) ].
Proof. reflexivity. Qed.

(** main.cpp's [main]: all ten points are labelled. *)
Example main_sample_run :
  map label (placeLabels main_cpp Main.points)
  = [ "A"; "B"; "C"; "D"; "E"; "F"; "G"; "H"; "I"; "J" ]%string.
Proof. reflexivity. Qed.

(** The fifth of five points at the origin is left without a label. *)
Example five_at_origin_run :
  map label (placeLabels Source_cpp (four_at_origin ++ [(origin, "E"%string)]))
  = [ "A"; "B"; "C"; "D" ]%string.
Proof. reflexivity. Qed.

(** A candidate that only touches a placed box is passed over: for the
    point (6, 0) the top-right candidate [7,13] x [1,3] shares the edge
    [x = 7] with the box of (0, 0), and the bottom-right one is taken. *)
Example touching_candidate_run :
  map label_box
      (placeLabels Source_cpp
         [(origin, "A"%string); (mk_point 6 0, "B"%string)])
  = [ mk_box (mk_point 1 1) (mk_point 7 3);
      mk_box (mk_point 7 (-3)) (mk_point 13 (-1)) ].
Proof. reflexivity. Qed.

(** The drop case of the specification (section 8): two points at the
    origin, labels of size 1 x 1 and the single offset (0.1, 0.1). *)
Example single_offset_drop_run :
  map label
      (placeLabels_with 1 1 [(0.1, 0.1)]
         [(origin, "A"%string); (origin, "B"%string)])
  = [ "A"%string ].
Proof. reflexivity. Qed.

(** C1. No two entries at distinct positions of the result of
    [placeLabels] have boxes that [bg::intersects] (and so [hasOverlap])
    reports as overlapping, whatever the input. *)
Theorem placeLabels_no_overlap (prog : program) (input : list input_point)
    (i j : nat) (a b : labeled_point) :
  i <> j ->
  placeLabels prog input !! i = Some a ->
  placeLabels prog input !! j = Some b ->
  bg_intersects (label_box a) (label_box b) = false /\
  hasOverlap (label_box a) [b] = false.
Proof.
  rewrite placeLabels_unfold. intros Hij Hi Hj.
  assert (bg_intersects (label_box a) (label_box b) = false) as H.
  { eapply place_from_pairwise_disjoint;
      [apply pairwise_disjoint_nil | exact Hij | exact Hi | exact Hj]. }
  split; [exact H | simpl; by rewrite H].
Qed.

(** The first and the last label of Source.cpp's sample run. *)
Lemma placeLabels_no_overlap_witness :
  bg_intersects (mk_box (mk_point 2 2) (mk_point 8 4))
                (mk_box (mk_point (-5) 3) (mk_point 1 5)) = false /\
  hasOverlap (mk_box (mk_point 2 2) (mk_point 8 4))
    [mk_labeled_point (mk_point 2 2) "Label E"
       (mk_box (mk_point (-5) 3) (mk_point 1 5))] = false.
Proof.
  apply (placeLabels_no_overlap Source_cpp Source.points 0 4
           (mk_labeled_point (mk_point 1 1) "Label A"
              (mk_box (mk_point 2 2) (mk_point 8 4)))
           (mk_labeled_point (mk_point 2 2) "Label E"
              (mk_box (mk_point (-5) 3) (mk_point 1 5))));
    [discriminate | reflexivity | reflexivity].
Defined.

(** C3. The (point, label) pairs of the result, in result order, form a
    subsequence of the input: each comes from an input entry of its own,
    in the same relative order. *)
Theorem placeLabels_subsequence (prog : program) (input : list input_point) :
  map spec_of (placeLabels prog input) `sublist_of` input.
Proof.
  rewrite placeLabels_unfold. unfold placeLabels_with.
  destruct (place_from_appends (label_width prog) (label_height prog)
              (offsets prog) [] input) as (k & -> & Hk).
  exact Hk.
Qed.

(** C5. An input entry all of whose candidate boxes overlap an accepted
    box leaves no trace: the run returns what it returns on the input
    without that entry, so the entries after it are processed as usual. *)
Theorem placeLabels_drops_unplaceable (prog : program)
    (before after : list input_point) (pt : point_t) (label_str : string) :
  Forall (fun c => hasOverlap c (placeLabels prog before) = true)
         (candidate_boxes prog pt) ->
  placeLabels prog (before ++ (pt, label_str) :: after)
  = placeLabels prog (before ++ after).
Proof.
  rewrite placeLabels_unfold. unfold placeLabels_with, candidate_boxes.
  intros H. rewrite !place_from_app, place_from_cons.
  by rewrite place_one_dropped.
Qed.

(** Five points at the origin: the first four take the four corners, the
    fifth finds every corner taken, and the far point after it is still
    labelled. *)
Lemma placeLabels_drops_unplaceable_witness :
  placeLabels Source_cpp
    (four_at_origin ++ (origin, "E"%string) :: [far_point])
  = placeLabels Source_cpp (four_at_origin ++ [far_point]).
Proof.
  apply (placeLabels_drops_unplaceable Source_cpp four_at_origin [far_point]
           origin "E").
  vm_compute. repeat constructor.
Defined.

(** C6. The result on a prefix [P] of the input is a prefix of the result
    on the whole input, and what follows it comes from the entries after
    [P]: a label once placed stays as it is, and an entry of [P] left
    without a label gets none later. *)
Theorem placeLabels_prefix_monotone (prog : program)
    (P S : list input_point) :
  placeLabels prog P `prefix_of` placeLabels prog (P ++ S) /\
  exists later,
    placeLabels prog (P ++ S) = placeLabels prog P ++ later /\
    map spec_of later `sublist_of` S.
Proof.
  rewrite placeLabels_unfold. split; [apply place_from_prefix|].
  unfold placeLabels_with. rewrite place_from_app.
  apply place_from_appends.
Qed.

(** Every call returns: there is a complete run, and it ends with the
    value of [placeLabels]. *)
Lemma runs_placeLabels (prog : program) (input : list input_point) :
  runs prog input (placeLabels prog input).
Proof.
  unfold runs. rewrite placeLabels_unfold. apply exec_place_from.
Qed.

(** C7. Two complete runs of [placeLabels] on the same input return the
    same list: the same entries in the same order, with equal points,
    labels and boxes. *)
Theorem placeLabels_deterministic (prog : program)
    (input : list input_point) (first second : list labeled_point) :
  runs prog input first -> runs prog input second -> first = second.
Proof. apply exec_deterministic. Qed.

Lemma placeLabels_deterministic_witness :
  placeLabels Source_cpp Source.points = placeLabels Source_cpp Source.points.
Proof.
  apply (placeLabels_deterministic Source_cpp Source.points);
    apply runs_placeLabels.
Defined.

(** C8. There are two entries A and B such that [A; B] yields a label for
    A and none for B, while [B; A] yields a label for B and none for A.
    The two entries sit at the same far-out point. *)
Theorem placeLabels_order_sensitive (prog : program) :
  exists A B : input_point,
    A <> B /\
    map spec_of (placeLabels prog [A; B]) = [A] /\
    map spec_of (placeLabels prog [B; A]) = [B].
Proof.
  exists remote_A, remote_B.
  split; [discriminate|]. destruct prog; split; reflexivity.
Qed.

(** ** Shape of the accepted boxes *)

(** Both label sizes are positive finite doubles in both programs. *)
Lemma label_size_finite (prog : program) :
  (exists m e, Prim2SF (label_width prog) = S754_finite false m e) /\
  (exists m e, Prim2SF (label_height prog) = S754_finite false m e).
Proof. destruct prog; split; vm_compute; eauto. Qed.

Lemma candidate_box_at_of_offset (w h : float) (pt : point_t) (dx dy : float) :
  candidate_box_at w h pt (dx, dy) = candidate_of_offset w h pt dx dy.
Proof. reflexivity. Qed.

Lemma candidate_of_offset_ordered (prog : program) (pt : point_t)
    (dx dy : float) :
  box_ordered
    (candidate_of_offset (label_width prog) (label_height prog) pt dx dy).
Proof.
  destruct (label_size_finite prog) as [(mw & ew & Hw) (mh & eh & Hh)].
  split; cbn [candidate_of_offset max_corner min_corner get0 get1].
  - exact (add_pos_not_below _ _ mw ew Hw).
  - exact (add_pos_not_below _ _ mh eh Hh).
Qed.

(** C4. A point that is processed while nothing has been placed gets the
    first offset in configured order: its entry is the first of the
    result (the whole result when it is the last input entry), and its box
    has [min_corner] at the point shifted by that offset and [max_corner]
    at [min_corner] shifted by the label size, never below [min_corner]. *)
Theorem placeLabels_first_candidate (prog : program)
    (before after : list input_point) (pt : point_t) (label_str : string)
    (dx dy : float) :
  placeLabels prog before = [] ->
  head (offsets prog) = Some (dx, dy) ->
  placeLabels prog (before ++ [(pt, label_str)])
  = [mk_labeled_point pt label_str
       (candidate_of_offset (label_width prog) (label_height prog) pt dx dy)]
  /\
  head (placeLabels prog (before ++ (pt, label_str) :: after))
  = Some (mk_labeled_point pt label_str
            (candidate_of_offset (label_width prog) (label_height prog)
               pt dx dy))
  /\
  box_ordered
    (candidate_of_offset (label_width prog) (label_height prog) pt dx dy).
Proof.
  intros Hempty Hoff.
  assert (Hone : placeLabels prog (before ++ [(pt, label_str)])
                 = [mk_labeled_point pt label_str
                      (candidate_of_offset (label_width prog)
                         (label_height prog) pt dx dy)]).
  { revert Hempty. rewrite placeLabels_unfold. unfold placeLabels_with.
    intros Hempty. rewrite place_from_app, Hempty.
    cbn [place_from fold_left place_one].
    destruct (offsets prog) as [|off rest]; [discriminate|].
    injection Hoff as ->. reflexivity. }
  split; [exact Hone|]. split; [|apply candidate_of_offset_ordered].
  pose proof (placeLabels_unfold prog) as Hun.
  assert (placeLabels prog (before ++ [(pt, label_str)])
            `prefix_of` placeLabels prog (before ++ (pt, label_str) :: after))
    as [k Hk].
  { replace (before ++ (pt, label_str) :: after)
      with ((before ++ [(pt, label_str)]) ++ after)
      by (by rewrite <- app_assoc).
    rewrite Hun. apply place_from_prefix. }
  rewrite Hk, Hone. reflexivity.
Qed.

(** The first point of Source.cpp's sample data. *)
Lemma placeLabels_first_candidate_witness :
  placeLabels Source_cpp ([] ++ [(mk_point 1 1, "Label A"%string)])
  = [mk_labeled_point (mk_point 1 1) "Label A"
       (candidate_of_offset (label_width Source_cpp) (label_height Source_cpp)
          (mk_point 1 1) 1 1)]
  /\
  head (placeLabels Source_cpp
          ([] ++ (mk_point 1 1, "Label A"%string) :: tail Source.points))
  = Some (mk_labeled_point (mk_point 1 1) "Label A"
            (candidate_of_offset (label_width Source_cpp)
               (label_height Source_cpp) (mk_point 1 1) 1 1))
  /\
  box_ordered
    (candidate_of_offset (label_width Source_cpp) (label_height Source_cpp)
       (mk_point 1 1) 1 1).
Proof.
  apply (placeLabels_first_candidate Source_cpp [] (tail Source.points)
           (mk_point 1 1) "Label A" 1 1); reflexivity.
Defined.

(** C10, as stated, fails.  For the first point of main.cpp's own sample
    data the accepted box is 0.40000000000000013 wide, which is not
    [label_width]; for a point near 1e17 Source.cpp accepts a box whose two
    corners coincide. *)
Lemma box_size_counterexample :
  (exists lp, placeLabels main_cpp Main.points !! 0%nat = Some lp /\
              box_width (label_box lp) = 0.40000000000000013 /\
              (box_width (label_box lp) =? label_width main_cpp) = false) /\
  (exists lp, placeLabels Source_cpp [remote_A] = [lp] /\
              box_width (label_box lp) = 0 /\
              box_height (label_box lp) = 0 /\
              (box_width (label_box lp) =? label_width Source_cpp) = false /\
              (box_height (label_box lp) =? label_height Source_cpp) = false).
Proof.
  split; eexists; repeat split; reflexivity.
Qed.

(** C10, amended. Every entry of the result has its [min_corner] at its
    point shifted by one of the configured offsets and its [max_corner] at
    [min_corner] shifted by [(label_width, label_height)], each sum being
    a double addition, and [max_corner] is never below [min_corner].  The
    difference of the corners equals the label size only up to the
    rounding of these sums. *)
Theorem placeLabels_box_shape (prog : program) (input : list input_point)
    (lp : labeled_point) :
  In lp (placeLabels prog input) ->
  (exists dx dy, In (dx, dy) (offsets prog) /\
     min_corner (label_box lp)
     = mk_point (get0 (point lp) + dx) (get1 (point lp) + dy)) /\
  max_corner (label_box lp)
  = mk_point (get0 (min_corner (label_box lp)) + label_width prog)
             (get1 (min_corner (label_box lp)) + label_height prog) /\
  box_ordered (label_box lp).
Proof.
  rewrite placeLabels_unfold. unfold placeLabels_with. intros Hin.
  pose proof (place_from_at_candidate (label_width prog) (label_height prog)
                (offsets prog) [] input ltac:(constructor)) as Hall.
  rewrite Forall_forall in Hall.
  destruct (Hall lp) as ([dx dy] & Hoff & Hbox).
  { by apply list_elem_of_In. }
  rewrite Hbox, candidate_box_at_of_offset.
  split; [exists dx, dy; split; [exact Hoff | reflexivity]|].
  split; [reflexivity | apply candidate_of_offset_ordered].
Qed.

(** The label of point A in main.cpp's sample run. *)
Lemma placeLabels_box_shape_witness :
  (exists dx dy, In (dx, dy) (offsets main_cpp) /\
     mk_point 1.2 1.2 = mk_point (1 + dx) (1 + dy)) /\
  mk_point 1.6000000000000001 1.3999999999999999
  = mk_point (1.2 + label_width main_cpp) (1.2 + label_height main_cpp) /\
  box_ordered
    (mk_box (mk_point 1.2 1.2) (mk_point 1.6000000000000001 1.3999999999999999)).
Proof.
  apply (placeLabels_box_shape main_cpp Main.points
           (mk_labeled_point (mk_point 1 1) "A"
              (mk_box (mk_point 1.2 1.2)
                 (mk_point 1.6000000000000001 1.3999999999999999)))).
  left. reflexivity.
Defined.

(** * Further properties of the placement loop *)

(** ** [hasOverlap] and the order of the placed labels *)

Lemma hasOverlap_app (candidate : box_t) (l1 l2 : list labeled_point) :
  hasOverlap candidate (l1 ++ l2)
  = hasOverlap candidate l1 || hasOverlap candidate l2.
Proof.
  induction l1 as [|p l1 IH]; [reflexivity|]. simpl.
  destruct (bg_intersects candidate (label_box p)); [reflexivity | exact IH].
Qed.

(** X1. The answer of [hasOverlap] does not depend on the order of the
    placed labels, although the loop returns at the first hit. *)
Theorem hasOverlap_permutation (candidate : box_t)
    (l1 l2 : list labeled_point) :
  l1 ≡ₚ l2 -> hasOverlap candidate l1 = hasOverlap candidate l2.
Proof.
  induction 1 as [|p l1 l2 _ IH|p q l|l1 l2 l3 _ IH1 _ IH2]; simpl.
  - reflexivity.
  - by rewrite IH.
  - destruct (bg_intersects candidate (label_box p)),
      (bg_intersects candidate (label_box q)); reflexivity.
  - congruence.
Qed.

(** Source.cpp's sample result, reversed. *)
Lemma hasOverlap_permutation_witness :
  hasOverlap unit_square_at_0 (placeLabels Source_cpp Source.points)
  = hasOverlap unit_square_at_0
      (reverse (placeLabels Source_cpp Source.points)).
Proof.
  apply (hasOverlap_permutation unit_square_at_0
           (placeLabels Source_cpp Source.points)
           (reverse (placeLabels Source_cpp Source.points))).
  symmetry. apply reverse_Permutation.
Defined.

(** ** First fit *)

Section FirstFit.

Variables label_width label_height : float.
Variable offsets : list (float * float).

#[local] Abbreviation try_offsets := (try_offsets label_width label_height).
#[local] Abbreviation candidate_box_at :=
  (candidate_box_at label_width label_height).
#[local] Abbreviation place_one := (place_one label_width label_height offsets).
#[local] Abbreviation place_from :=
  (place_from label_width label_height offsets).

(** The inner loop stops at the first free candidate: all candidates
    before it overlap. *)
Lemma try_offsets_first_free pt label_str result offs :
  (try_offsets pt label_str result offs = None /\
   Forall (fun c => hasOverlap c result = true)
          (map (candidate_box_at pt) offs)) \/
  (exists (k : nat) (c : box_t),
     map (candidate_box_at pt) offs !! k = Some c /\
     Forall (fun c' => hasOverlap c' result = true)
            (take k (map (candidate_box_at pt) offs)) /\
     hasOverlap c result = false /\
     try_offsets pt label_str result offs
     = Some (mk_labeled_point pt label_str c)).
Proof.
  induction offs as [|off rest IH]; simpl.
  - left. split; [reflexivity | constructor].
  - destruct (hasOverlap (candidate_box_at pt off) result) eqn:E; simpl.
    + destruct IH as [[Hnone Hall] | (k & c & Hk & Hbefore & Hfree & Hsome)].
      * left. split; [exact Hnone | by constructor].
      * right. exists (S k), c.
        split; [exact Hk|]. split; [by constructor|]. split; done.
    + right. exists 0%nat, (candidate_box_at pt off).
      split; [reflexivity|]. split; [constructor|]. split; done.
Qed.

(** Dropping the entries that got no label changes nothing. *)
Lemma place_from_kept l result k :
  place_from result l = result ++ k ->
  place_from result (map spec_of k) = result ++ k.
Proof.
  revert result k. induction l as [|[pt s] l IH]; intros result k.
  - cbn [place_from fold_left]. intros H.
    assert (k = []) as ->
      by (apply (app_inv_head result); by rewrite app_nil_r).
    cbn. by rewrite app_nil_r.
  - rewrite place_from_cons.
    destruct (place_one_cases label_width label_height offsets result pt s)
      as [[-> _] | (lp & Hone & Hlp)].
    + apply IH.
    + rewrite Hone. intros H.
      destruct (place_from_appends label_width label_height offsets
                  (result ++ [lp]) l) as (k' & Hk' & _).
      rewrite Hk', <- app_assoc in H. apply app_inv_head in H. subst k.
      cbn [map app]. rewrite place_from_cons.
      apply try_offsets_Some in Hlp as Hfields.
      destruct Hfields as (Hp & Hs & _).
      unfold spec_of at 1. rewrite Hp, Hs, Hone.
      rewrite (IH _ _ Hk'). by rewrite <- app_assoc.
Qed.

Lemma hasOverlap_boxes c r1 r2 :
  map label_box r1 = map label_box r2 -> hasOverlap c r1 = hasOverlap c r2.
Proof.
  revert r2. induction r1 as [|p r1 IH]; intros [|q r2]; simpl;
    try discriminate; [reflexivity|].
  intros [= -> H]. by rewrite (IH _ H).
Qed.

Lemma try_offsets_relabel pt s1 s2 r1 r2 offs :
  map label_box r1 = map label_box r2 ->
  option_map placement (try_offsets pt s1 r1 offs)
  = option_map placement (try_offsets pt s2 r2 offs).
Proof.
  intros H. induction offs as [|off rest IH]; simpl; [reflexivity|].
  rewrite (hasOverlap_boxes _ _ _ H).
  destruct (hasOverlap (candidate_box_at pt off) r2); simpl;
    [exact IH | reflexivity].
Qed.

Lemma placement_boxes (r1 r2 : list labeled_point) :
  map placement r1 = map placement r2 -> map label_box r1 = map label_box r2.
Proof.
  intros H. apply (f_equal (map snd)) in H.
  by rewrite !map_map in H.
Qed.

Lemma place_from_relabel l1 l2 r1 r2 :
  map fst l1 = map fst l2 ->
  map placement r1 = map placement r2 ->
  map placement (place_from r1 l1) = map placement (place_from r2 l2).
Proof.
  revert l2 r1 r2.
  induction l1 as [|[pt s1] l1 IH]; intros [|[pt2 s2] l2] r1 r2; simpl;
    try discriminate; [done|].
  intros [= <- Hl] Hr. apply IH; [exact Hl|].
  pose proof (try_offsets_relabel pt s1 s2 r1 r2 offsets
                (placement_boxes _ _ Hr)) as Ht.
  destruct (try_offsets pt s1 r1 offsets) as [lp1|],
           (try_offsets pt s2 r2 offsets) as [lp2|];
    simpl in Ht; try discriminate; [|exact Hr].
  assert (placement lp1 = placement lp2) as Hp by congruence.
  rewrite !map_app. cbn [map]. by rewrite Hr, Hp.
Qed.

End FirstFit.

(** An entry's turn either leaves the result alone, all its candidates
    overlapping, or appends one label. *)
Lemma placeLabels_first_fit_cases (prog : program)
    (before : list input_point) (pt : point_t) (label_str : string) :
  (Forall (fun c => hasOverlap c (placeLabels prog before) = true)
          (candidate_boxes prog pt) /\
   placeLabels prog (before ++ [(pt, label_str)]) = placeLabels prog before)
  \/
  (exists lp, placeLabels prog (before ++ [(pt, label_str)])
              = placeLabels prog before ++ [lp]).
Proof.
  rewrite placeLabels_unfold.
  unfold placeLabels_with, candidate_boxes, candidates.
  rewrite place_from_app.
  set (r := place_from (label_width prog) (label_height prog) (offsets prog)
              [] before).
  change (place_from (label_width prog) (label_height prog) (offsets prog)
            r [(pt, label_str)])
    with (place_one (label_width prog) (label_height prog) (offsets prog)
            r (pt, label_str)).
  unfold place_one.
  destruct (try_offsets_first_free (label_width prog) (label_height prog)
              pt label_str r (offsets prog))
    as [[-> Hall] | (k & c & _ & _ & _ & ->)].
  - left. split; [exact Hall | reflexivity].
  - right. by eexists.
Qed.

(** X2. First fit. When an entry's turn comes, either all its candidate
    boxes overlap the labels placed so far and the result stays as it is,
    or the entry is appended with the first candidate, in offset order,
    that overlaps none of them: every candidate before it does overlap. *)
Theorem placeLabels_first_fit (prog : program) (before : list input_point)
    (pt : point_t) (label_str : string) :
  (Forall (fun c => hasOverlap c (placeLabels prog before) = true)
          (candidate_boxes prog pt) /\
   placeLabels prog (before ++ [(pt, label_str)]) = placeLabels prog before)
  \/
  (exists (k : nat) (c : box_t),
     candidate_boxes prog pt !! k = Some c /\
     Forall (fun c' => hasOverlap c' (placeLabels prog before) = true)
            (take k (candidate_boxes prog pt)) /\
     hasOverlap c (placeLabels prog before) = false /\
     placeLabels prog (before ++ [(pt, label_str)])
     = placeLabels prog before ++ [mk_labeled_point pt label_str c]).
Proof.
  rewrite placeLabels_unfold.
  unfold placeLabels_with, candidate_boxes, candidates.
  rewrite place_from_app.
  set (r := place_from (label_width prog) (label_height prog) (offsets prog)
              [] before).
  change (place_from (label_width prog) (label_height prog) (offsets prog)
            r [(pt, label_str)])
    with (place_one (label_width prog) (label_height prog) (offsets prog)
            r (pt, label_str)).
  unfold place_one.
  destruct (try_offsets_first_free (label_width prog) (label_height prog)
              pt label_str r (offsets prog))
    as [[-> Hall] | (k & c & Hk & Hbefore & Hfree & ->)].
  - left. split; [exact Hall | reflexivity].
  - right. exists k, c. split; [exact Hk|]. split; [exact Hbefore|].
    split; [exact Hfree | reflexivity].
Qed.

(** X3. An entry that got no label at its turn could not be given one
    afterwards either: each of its candidate boxes still overlaps some
    label of the final result. *)
Theorem placeLabels_unlabeled_stay_blocked (prog : program)
    (before after : list input_point) (pt : point_t) (label_str : string) :
  placeLabels prog (before ++ [(pt, label_str)]) = placeLabels prog before ->
  Forall (fun c =>
            hasOverlap c (placeLabels prog (before ++ (pt, label_str) :: after))
            = true)
         (candidate_boxes prog pt).
Proof.
  intros Hdropped.
  destruct (placeLabels_first_fit_cases prog before pt label_str)
    as [[Hall _] | Hplaced].
  - pose proof (placeLabels_unfold prog) as Hun.
    assert (placeLabels prog before
              `prefix_of` placeLabels prog (before ++ (pt, label_str) :: after))
      as [k ->] by (rewrite Hun; apply place_from_prefix).
    eapply Forall_impl; [exact Hall|]. intros c Hc. simpl in Hc.
    by rewrite hasOverlap_app, Hc.
  - destruct Hplaced as (lp & Hlp). rewrite Hlp in Hdropped.
    apply (f_equal length) in Hdropped. rewrite length_app in Hdropped.
    simpl in Hdropped. lia.
Qed.

(** The fifth point at the origin, with a far point placed after it. *)
Lemma placeLabels_unlabeled_stay_blocked_witness :
  Forall (fun c =>
            hasOverlap c
              (placeLabels Source_cpp
                 (four_at_origin ++ (origin, "E"%string) :: [far_point]))
            = true)
         (candidate_boxes Source_cpp origin).
Proof.
  apply (placeLabels_unlabeled_stay_blocked Source_cpp four_at_origin
           [far_point] origin "E").
  reflexivity.
Defined.

(** X4. Running [placeLabels] again on just the entries that got a label
    gives the same result: the entries left without a label had no
    influence on where the others went. *)
Theorem placeLabels_without_unlabeled (prog : program)
    (input : list input_point) :
  placeLabels prog (map spec_of (placeLabels prog input))
  = placeLabels prog input.
Proof.
  rewrite placeLabels_unfold. unfold placeLabels_with.
  apply (place_from_kept (label_width prog) (label_height prog)
           (offsets prog) input [] _ eq_refl).
Qed.

(** X5. The label texts play no part in the placement: two inputs with
    the same points in the same order get the same points labelled, in the
    same boxes. *)
Theorem placeLabels_ignores_label_text (prog : program)
    (input1 input2 : list input_point) :
  map fst input1 = map fst input2 ->
  map placement (placeLabels prog input1)
  = map placement (placeLabels prog input2).
Proof.
  rewrite placeLabels_unfold. intros H.
  by apply place_from_relabel.
Qed.

(** Source.cpp's sample points, each with an empty label. *)
Lemma placeLabels_ignores_label_text_witness :
  map placement (placeLabels Source_cpp Source.points)
  = map placement
      (placeLabels Source_cpp
         (map (fun e => (fst e, ""%string)) Source.points)).
Proof.
  apply (placeLabels_ignores_label_text Source_cpp Source.points
           (map (fun e => (fst e, ""%string)) Source.points)).
  reflexivity.
Defined.

(** ** Distinct boxes *)

Lemma box_ordered_intersects_itself (b : box_t) :
  box_ordered b -> bg_intersects b b = true.
Proof. intros [H0 H1]. by apply bg_intersects_true. Qed.

Lemma placeLabels_boxes_ordered (prog : program) (input : list input_point)
    (lp : labeled_point) :
  In lp (placeLabels prog input) -> box_ordered (label_box lp).
Proof.
  rewrite placeLabels_unfold. unfold placeLabels_with. intros Hin.
  pose proof (place_from_at_candidate (label_width prog) (label_height prog)
                (offsets prog) [] input ltac:(constructor)) as Hall.
  rewrite Forall_forall in Hall.
  destruct (Hall lp) as ([dx dy] & _ & ->); [by apply list_elem_of_In|].
  rewrite candidate_box_at_of_offset. apply candidate_of_offset_ordered.
Qed.

(** X6. No box is used twice: the boxes of the result are pairwise
    different, and each of them, offered again, is reported by
    [hasOverlap] as overlapping the result. *)
Theorem placeLabels_boxes_distinct (prog : program)
    (input : list input_point) :
  NoDup (map label_box (placeLabels prog input)) /\
  (forall lp, In lp (placeLabels prog input) ->
     hasOverlap (label_box lp) (placeLabels prog input) = true).
Proof.
  split.
  - change (NoDup (label_box <$> placeLabels prog input)).
    apply NoDup_alt. intros i j b Hi Hj.
    rewrite list_lookup_fmap in Hi, Hj.
    destruct (placeLabels prog input !! i) as [a|] eqn:Ea; [|discriminate].
    destruct (placeLabels prog input !! j) as [a'|] eqn:Ea'; [|discriminate].
    injection Hi as Hi. injection Hj as Hj.
    destruct (decide (i = j)) as [|Hne]; [done|exfalso].
    assert (bg_intersects (label_box a) (label_box a') = false) as Hfree.
    { revert Ea Ea'. rewrite placeLabels_unfold. intros Ea Ea'.
      eapply place_from_pairwise_disjoint;
        [apply pairwise_disjoint_nil | exact Hne | exact Ea | exact Ea']. }
    rewrite Hi, Hj, box_ordered_intersects_itself in Hfree; [discriminate|].
    rewrite <- Hi. eapply placeLabels_boxes_ordered.
    apply list_elem_of_In. by eapply list_elem_of_lookup_2.
  - intros lp Hin. apply hasOverlap_true. exists lp. split; [exact Hin|].
    apply box_ordered_intersects_itself.
    by eapply placeLabels_boxes_ordered.
Qed.

(** ** Inputs without conflicts *)

Lemma place_from_conflict_free (prog : program) (dx dy : float)
    (offs : list (float * float)) (pre rest : list input_point) :
  offsets prog = (dx, dy) :: offs ->
  pairwise_disjoint (map (labelled_at prog dx dy) (pre ++ rest)) ->
  place_from (label_width prog) (label_height prog) (offsets prog)
    (map (labelled_at prog dx dy) pre) rest
  = map (labelled_at prog dx dy) (pre ++ rest).
Proof.
  intros Hoff. revert pre.
  induction rest as [|[pt s] rest IH]; intros pre Hfree.
  - by rewrite app_nil_r.
  - rewrite place_from_cons.
    rewrite cons_middle, app_assoc in Hfree.
    rewrite cons_middle, app_assoc.
    rewrite <- (IH _ Hfree). f_equal.
    unfold place_one. rewrite Hoff. cbn [try_offsets].
    rewrite candidate_box_at_of_offset.
    replace (hasOverlap _ (map (labelled_at prog dx dy) pre)) with false.
    { by rewrite map_app. }
    symmetry. apply hasOverlap_false. intros placed Hin.
    apply list_elem_of_In, list_elem_of_lookup in Hin as [i Hi].
    assert (i < length pre)%nat as Hlt.
    { apply lookup_lt_Some in Hi. by rewrite length_map in Hi. }
    apply (Hfree (length pre) i
             (labelled_at prog dx dy (pt, s)) placed); [lia| |].
    + change (map (labelled_at prog dx dy) ((pre ++ [(pt, s)]) ++ rest))
        with (labelled_at prog dx dy <$> ((pre ++ [(pt, s)]) ++ rest)).
      rewrite list_lookup_fmap, <- app_assoc.
      rewrite lookup_app_r by lia. by rewrite Nat.sub_diag.
    + rewrite !map_app, <- app_assoc. by rewrite lookup_app_l
        by (by rewrite length_map).
Qed.

(** X7. When the boxes at the first offset of all input points are
    pairwise free of each other, every entry is labelled, in input order,
    each at its first offset. *)
Theorem placeLabels_conflict_free (prog : program)
    (input : list input_point) (dx dy : float) :
  head (offsets prog) = Some (dx, dy) ->
  pairwise_disjoint (map (labelled_at prog dx dy) input) ->
  placeLabels prog input = map (labelled_at prog dx dy) input.
Proof.
  intros Hhead Hfree. rewrite placeLabels_unfold.
  destruct (offsets prog) as [|off offs] eqn:Hoff; [discriminate|].
  injection Hhead as ->. rewrite <- Hoff.
  exact (place_from_conflict_free prog dx dy offs [] input Hoff Hfree).
Qed.

(** main.cpp's sample data: ten points, ten labels to the top right. *)
Lemma placeLabels_conflict_free_witness :
  placeLabels main_cpp Main.points
  = map (labelled_at main_cpp 0.2 0.2) Main.points.
Proof.
  apply (placeLabels_conflict_free main_cpp Main.points 0.2 0.2);
    [reflexivity|].
  change (map (labelled_at main_cpp 0.2 0.2) Main.points)
    with (place_from Main.label_width Main.label_height Main.offsets
            [] Main.points).
  apply place_from_pairwise_disjoint, pairwise_disjoint_nil.
Defined.

(** * The report of unlabeled points *)

Section ReportFacts.

Variable bg_equals : point_t -> point_t -> bool.

#[local] Abbreviation has_label := (has_label bg_equals).
#[local] Abbreviation unlabeled_points := (unlabeled_points bg_equals).

Lemma has_label_true placed_labels pt :
  has_label placed_labels pt = true <->
  exists lp, In lp placed_labels /\ bg_equals (point lp) pt = true.
Proof.
  induction placed_labels as [|p rest IH]; simpl.
  - split; [discriminate | intros (? & [] & _)].
  - destruct (bg_equals (point p) pt) eqn:E.
    + split; [intros _; exists p; auto | reflexivity].
    + rewrite IH. split.
      * intros (q & Hq & He). exists q; auto.
      * intros (q & [-> | Hq] & He); [congruence | exists q; auto].
Qed.

Lemma unlabeled_points_In placed_labels all_points e :
  In e (unlabeled_points placed_labels all_points) <->
  In e all_points /\ has_label placed_labels (fst e) = false.
Proof.
  induction all_points as [|pp rest IH]; simpl; [tauto|].
  destruct (has_label placed_labels (fst pp)) eqn:E; simpl; rewrite IH.
  - split; [tauto|]. intros [[-> | H] Hf]; [congruence | tauto].
  - split; [intros [-> | [H Hf]]; tauto | tauto].
Qed.

(** Entries that count as labelled take no part in the report. *)
Lemma unlabeled_points_length placed_labels (k l : list input_point) :
  k `sublist_of` l ->
  (forall e, In e k -> has_label placed_labels (fst e) = true) ->
  (length (unlabeled_points placed_labels l) + length k <= length l)%nat.
Proof.
  induction 1 as [|x k l _ IH|x k l _ IH]; intros Hk; simpl.
  - lia.
  - rewrite (Hk x) by (by left). simpl.
    assert (forall e, In e k -> has_label placed_labels (fst e) = true)
      by (intros e He; apply Hk; by right).
    specialize (IH ltac:(assumption)). lia.
  - specialize (IH Hk).
    destruct (has_label placed_labels (fst x)); simpl; lia.
Qed.

End ReportFacts.

(** X8. If no input point differs from itself under [bg::equals], the
    report never names an entry that was given a label, and the number of
    reported entries plus the number of labels is at most the number of
    input points. *)
Theorem unlabeled_report_sound (bg_equals : point_t -> point_t -> bool)
    (prog : program) (input : list input_point) :
  (forall p, In p (map fst input) -> bg_equals p p = true) ->
  (forall lp, In lp (placeLabels prog input) ->
     ~ In (spec_of lp)
          (unlabeled_points bg_equals (placeLabels prog input) input)) /\
  (length (unlabeled_points bg_equals (placeLabels prog input) input)
   + length (placeLabels prog input) <= length input)%nat.
Proof.
  intros Hrefl.
  assert (Hsub : map spec_of (placeLabels prog input) `sublist_of` input).
  { rewrite placeLabels_unfold. unfold placeLabels_with.
    destruct (place_from_appends (label_width prog) (label_height prog)
                (offsets prog) [] input) as (k & -> & Hk).
    exact Hk. }
  assert (Hlab : forall lp, In lp (placeLabels prog input) ->
            has_label bg_equals (placeLabels prog input) (point lp) = true).
  { intros lp Hin. apply has_label_true. exists lp. split; [exact Hin|].
    apply Hrefl. apply in_map_iff. exists (spec_of lp). split; [reflexivity|].
    apply list_elem_of_In. eapply elem_of_sublist; [|exact Hsub].
    apply list_elem_of_In, in_map_iff. by exists lp. }
  split.
  - intros lp Hin Hrep. apply unlabeled_points_In in Hrep as [_ Hf].
    cbn [spec_of fst] in Hf. rewrite (Hlab lp Hin) in Hf. discriminate.
  - rewrite <- (length_map spec_of (placeLabels prog input)).
    apply unlabeled_points_length; [exact Hsub|].
    intros e He. apply in_map_iff in He as (lp & <- & Hin).
    cbn [spec_of fst]. by apply Hlab.
Qed.

(** main.cpp's sample run, with [==] on both coordinates for
    [bg::equals]. *)
Lemma unlabeled_report_sound_witness :
  (forall lp, In lp (placeLabels main_cpp Main.points) ->
     ~ In (spec_of lp)
          (unlabeled_points same_coordinates
             (placeLabels main_cpp Main.points) Main.points)) /\
  (length (unlabeled_points same_coordinates
             (placeLabels main_cpp Main.points) Main.points)
   + length (placeLabels main_cpp Main.points) <= length Main.points)%nat.
Proof.
  apply (unlabeled_report_sound same_coordinates main_cpp Main.points).
  intros p Hin. cbn in Hin.
  repeat (destruct Hin as [<- | Hin]; [reflexivity|]). destruct Hin.
Defined.

(** The report goes by coordinates alone: the fifth of five points at the
    origin has no label and is not reported, a labelled point sharing its
    coordinates. *)
Example coincident_unlabeled_not_reported :
  map label
      (placeLabels Source_cpp (four_at_origin ++ [(origin, "E"%string)]))
  = [ "A"; "B"; "C"; "D" ]%string /\
  unlabeled_points same_coordinates
    (placeLabels Source_cpp (four_at_origin ++ [(origin, "E"%string)]))
    (four_at_origin ++ [(origin, "E"%string)])
  = [].
Proof. split; reflexivity. Qed.

(** * Drawing coordinates *)

Example worldToImage_sample :
  worldToImage (mk_point 1.5 1.2) SCALE IMAGE_SIZE
  = Some (mk_cv_Point 120 504).
Proof. reflexivity. Qed.

Example worldBoxToImageRect_sample :
  worldBoxToImageRect (mk_box (mk_point 1.2 1.2) (mk_point 1.6 1.4))
    SCALE IMAGE_SIZE
  = Some (mk_cv_Rect 96 488 32 16).
Proof. reflexivity. Qed.

Section Canvas.

#[local] Open Scope Z_scope.

Lemma shiftl_neg_div (a f : Z) : f <= 0 -> Z.shiftl a f = a / 2 ^ (- f).
Proof.
  intros Hf. rewrite <- (Z.opp_involutive f) at 1.
  rewrite Z.shiftl_opp_r. apply Z.shiftr_div_pow2. lia.
Qed.

(** A rounded mantissa of at most [600 * 2^(-f)] at an exponent [f] low
    enough truncates to a pixel on the canvas. *)
Lemma trunc_int_rounded (m1 f : Z) :
  f <= -43 -> 0 <= m1 <= 600 * 2 ^ (- f) ->
  exists t, trunc_int (rounded false m1 f) = Some t /\ 0 <= t <= 600.
Proof.
  intros Hf [Hm0 Hm1]. unfold rounded.
  pose proof (pow2_pos (- f) ltac:(lia)) as Hp.
  assert (Hin : forall t, 0 <= t <= 600 -> in_int t = true).
  { intros t Ht. unfold in_int, int_min, int_max.
    apply andb_true_iff. split; apply Z.leb_le; lia. }
  destruct (Z.eqb_spec m1 0) as [|Hnz]; [exists 0; split; [reflexivity|lia]|].
  destruct (Z.ltb_spec m1 (2 ^ 53)) as [Hlt|Hge].
  - destruct (Z.leb_spec f 971); [|lia].
    cbn [trunc_int]. rewrite Z2Pos.id by lia.
    rewrite shiftl_neg_div by lia.
    assert (0 <= m1 / 2 ^ (- f) <= 600) as Ht.
    { split; [apply Z.div_pos; lia|].
      apply Z.div_le_upper_bound; lia. }
    rewrite (Hin _ Ht). eauto.
  - destruct (Z.leb_spec (f + 1) 971); [|lia].
    cbn [trunc_int]. rewrite shiftl_neg_div by lia.
    pose proof (pow2_pos (- (f + 1)) ltac:(lia)) as Hp'.
    assert (2 ^ (- f) = 2 * 2 ^ (- (f + 1))) as Hsplit.
    { replace (- f) with (1 + - (f + 1)) by lia.
      rewrite Z.pow_add_r by lia. reflexivity. }
    assert (0 <= Z.pos (2 ^ 52) / 2 ^ (- (f + 1)) <= 600) as Ht.
    { split; [apply Z.div_pos; lia|].
      apply Z.div_le_upper_bound; [lia|].
      change (Z.pos (2 ^ 52)) with (2 ^ 52).
      change (2 ^ 53) with (2 * 2 ^ 52) in Hge. lia. }
    rewrite (Hin _ Ht). eauto.
Qed.

(** The product of a double below 7.5 and 80, rounded and with its
    fraction dropped. *)
Lemma SFmul_below_600 (mx : positive) (ex : Z) :
  ex <= -50 -> Z.pos mx < 15 * 2 ^ (- 1 - ex) ->
  exists t,
    trunc_int (SF64mul (S754_finite false mx ex)
                 (S754_finite false 5629499534213120 (-46)))
    = Some t /\ 0 <= t <= 600.
Proof.
  intros Hex Hmx. unfold SF64mul. cbn [SFmul xorb].
  set (m := (mx * 5629499534213120)%positive).
  assert (Hm : Z.pos m = Z.pos mx * (5 * 2 ^ 50)) by reflexivity.
  pose proof (Zdigits2_bounds (Z.pos m) ltac:(lia)) as [Hd1 Hd2].
  assert (Hd0 : 0 < Zdigits2 (Z.pos m)) by (cbn [Zdigits2]; lia).
  set (d := Zdigits2 (Z.pos m)) in *.
  set (e := ex + -46).
  pose proof (pow2_pos (- 1 - ex) ltac:(lia)) as Hpx.
  assert (Hd53 : 53 <= d).
  { assert (2 ^ 52 < 2 ^ d) as Hp.
    { eapply Z.le_lt_trans; [|exact Hd2]. rewrite Hm.
      change (2 ^ 52) with (1 * (4 * 2 ^ 50)). nia. }
    apply pow2_lt_inv in Hp; lia. }
  assert (Hmup : Z.pos m < 75 * 2 ^ (49 - ex)).
  { rewrite Hm. replace (49 - ex) with (50 + (- 1 - ex)) by lia.
    rewrite Z.pow_add_r by lia. nia. }
  assert (Hd56 : d <= 56 - ex).
  { assert (2 ^ (d - 1) < 2 ^ (56 - ex)) as Hp.
    { eapply Z.le_lt_trans; [exact Hd1|].
      eapply Z.lt_le_trans; [exact Hmup|].
      replace (56 - ex) with (7 + (49 - ex)) by lia.
      rewrite Z.pow_add_r by lia.
      pose proof (pow2_pos (49 - ex) ltac:(lia)).
      change (2 ^ 7) with 128. nia. }
    apply pow2_lt_inv in Hp; lia. }
  destruct (binary_round_aux_shape false (Z.pos m) e loc_Exact)
    as (m1 & [Hq1 Hq2] & ->); [lia | fold d; rewrite fexp_eq; lia |].
  fold d in Hq1, Hq2 |- *. rewrite fexp_eq in Hq1, Hq2 |- *.
  set (f := Z.max (d + e - 53) (-1074)) in *.
  assert (Hf : f <= -43) by lia.
  assert (Hfe : e <= f) by lia.
  pose proof (pow2_pos (f - e) ltac:(lia)) as Hpfe.
  pose proof (pow2_pos (- f) ltac:(lia)) as Hpf.
  apply trunc_int_rounded; [exact Hf|]. split.
  - assert (0 <= Z.pos m / 2 ^ (f - e)) by (apply Z.div_pos; lia). lia.
  - assert (Z.pos m / 2 ^ (f - e) < 600 * 2 ^ (- f)); [|lia].
    apply Z.div_lt_upper_bound; [lia|].
    replace (2 ^ (f - e) * (600 * 2 ^ (- f))) with (75 * 2 ^ (49 - ex));
      [exact Hmup|].
    change 600 with (75 * 2 ^ 3).
    rewrite (Z.mul_comm (2 ^ (f - e))), <- !Z.mul_assoc.
    rewrite <- !Z.pow_add_r by lia. do 2 f_equal. lia.
Qed.

(** The order on positive doubles, read off exponent and mantissa. *)
Lemma SFleb_pos_pos_inv (m1 : positive) (e1 : Z) (m2 : positive) (e2 : Z) :
  SFleb (S754_finite false m1 e1) (S754_finite false m2 e2) = true ->
  e1 < e2 \/ (e1 = e2 /\ Z.pos m1 < Z.pos m2) \/ (e1 = e2 /\ m1 = m2).
Proof.
  unfold SFleb, SFcompare.
  change (Pos.compare_cont Eq m1 m2) with (Pos.compare m1 m2).
  destruct (Z.compare_spec e1 e2) as [He|He|He]; [| |discriminate].
  - destruct (Pos.compare_spec m1 m2) as [Hm|Hm|Hm]; [| |discriminate].
    + auto.
    + right. left. split; [exact He|]. by apply Pos2Z.pos_lt_pos.
  - auto.
Qed.

(** [x * 80] for a double [x] from 0 to 7.5, with its fraction dropped,
    is a defined [int] from 0 to 600. *)
Lemma SFmul_scale_on_canvas (x : spec_float) :
  valid_binary x = true ->
  SFleb (Prim2SF 0%float) x = true ->
  SFleb x (Prim2SF 7.5%float) = true ->
  exists t, trunc_int (SF64mul x (Prim2SF SCALE)) = Some t /\ 0 <= t <= 600.
Proof.
  intros Hv H0 H75.
  change (Prim2SF 0%float) with (S754_zero false) in H0.
  change (Prim2SF 7.5%float)
    with (S754_finite false 8444249301319680 (-50)) in H75.
  change (Prim2SF SCALE) with (S754_finite false 5629499534213120 (-46)).
  destruct x as [s|s| |s mx ex]; try discriminate.
  - exists 0. split; [reflexivity | lia].
  - destruct s; discriminate.
  - destruct s; [discriminate|].
    cbn [valid_binary] in Hv. apply bounded_canonical in Hv as [Hcan Hex].
    pose proof (digits2_pos_bounds mx) as [Hdx1 Hdx2].
    set (dx := Z.pos (digits2_pos mx)) in *.
    assert (Hmx53 : Z.pos mx < 2 ^ 53).
    { eapply Z.lt_le_trans; [exact Hdx2|]. apply Z.pow_le_mono_r; lia. }
    apply SFleb_pos_pos_inv in H75 as [He | [[He Hm] | [He Hm]]].
    + apply (SFmul_below_600 mx ex); [lia|].
      eapply Z.lt_le_trans; [exact Hmx53|].
      assert (2 ^ 50 <= 2 ^ (- 1 - ex)) by (apply Z.pow_le_mono_r; lia).
      change (2 ^ 53) with (8 * 2 ^ 50). lia.
    + apply (SFmul_below_600 mx ex); [lia|].
      subst ex. change (- 1 - -50) with 49.
      change (15 * 2 ^ 49) with 8444249301319680. exact Hm.
    + subst. exists 600. split; [reflexivity | lia].
Qed.

End Canvas.

(** [static_cast<int>(x * SCALE)] for a world coordinate from 0 to 7.5. *)
Lemma scaled_coordinate_on_canvas (x : float) :
  (0 <=? x) = true -> (x <=? 7.5) = true ->
  exists t, static_cast_int (x * SCALE) = Some t /\ (0 <= t <= 600)%Z.
Proof.
  rewrite !FloatAxioms.leb_spec. intros H0 H75.
  unfold static_cast_int. rewrite FloatAxioms.mul_spec.
  apply SFmul_scale_on_canvas; [apply Prim2SF_valid | exact H0 | exact H75].
Qed.

Lemma worldToImage_canvas_pixel (p : point_t) :
  on_canvas p ->
  exists px py,
    worldToImage p SCALE IMAGE_SIZE = Some (mk_cv_Point px py) /\
    (0 <= px <= 600)%Z /\ (0 <= py <= 600)%Z.
Proof.
  intros (Hx0 & Hx1 & Hy0 & Hy1).
  destruct (scaled_coordinate_on_canvas _ Hx0 Hx1) as (px & Hpx & Hrx).
  destruct (scaled_coordinate_on_canvas _ Hy0 Hy1) as (t & Ht & Hrt).
  exists px, (600 - t)%Z. unfold worldToImage. rewrite Hpx, Ht.
  cbn [mbind option_bind]. unfold int_sub, IMAGE_SIZE.
  replace (in_int (600 - t)) with true; [split; [reflexivity | lia]|].
  symmetry. unfold in_int, int_min, int_max.
  apply andb_true_iff. split; apply Z.leb_le; lia.
Qed.

(** X9. [worldToImage], called with the scale and image size of
    [visualizeWithOpenCV], is defined for every world point with both
    coordinates from 0 to 7.5, and the pixel it returns lies on the
    600 x 600 image. *)
Theorem worldToImage_on_canvas (p : point_t) :
  on_canvas p ->
  exists px py,
    worldToImage p SCALE IMAGE_SIZE = Some (mk_cv_Point px py) /\
    (0 <= px <= 600)%Z /\ (0 <= py <= 600)%Z.
Proof. apply worldToImage_canvas_pixel. Qed.

(** Point B of main.cpp's sample data. *)
Lemma worldToImage_on_canvas_witness :
  exists px py,
    worldToImage (mk_point 1.5 1.2) SCALE IMAGE_SIZE
    = Some (mk_cv_Point px py) /\
    (0 <= px <= 600)%Z /\ (0 <= py <= 600)%Z.
Proof.
  apply (worldToImage_on_canvas (mk_point 1.5 1.2)).
  repeat split; reflexivity.
Defined.

(** X10. For a box with both corners from 0 to 7.5 on both axes,
    [worldBoxToImageRect] is defined and the rectangle it returns lies on
    the 600 x 600 image, with a width and a height that are not
    negative. *)
Theorem worldBoxToImageRect_on_canvas (box : box_t) :
  on_canvas (min_corner box) -> on_canvas (max_corner box) ->
  exists r,
    worldBoxToImageRect box SCALE IMAGE_SIZE = Some r /\
    (0 <= rect_x r)%Z /\ (0 <= rect_y r)%Z /\
    (0 <= rect_width r)%Z /\ (0 <= rect_height r)%Z /\
    (rect_x r + rect_width r <= 600)%Z /\
    (rect_y r + rect_height r <= 600)%Z.
Proof.
  intros Hmin Hmax.
  destruct (worldToImage_canvas_pixel _ Hmin) as (x1 & y1 & H1 & Hx1 & Hy1).
  destruct (worldToImage_canvas_pixel _ Hmax) as (x2 & y2 & H2 & Hx2 & Hy2).
  unfold worldBoxToImageRect. rewrite H1, H2. cbn [mbind option_bind].
  unfold cv_Rect_of_points, int_sub. cbn [cv_x cv_y].
  assert (Hin : forall t, (0 <= t <= 600)%Z -> in_int t = true).
  { intros t Ht. unfold in_int, int_min, int_max.
    apply andb_true_iff. split; apply Z.leb_le; lia. }
  rewrite (Hin (Z.max x1 x2 - Z.min x1 x2)%Z) by lia.
  cbn [mbind option_bind].
  rewrite (Hin (Z.max y1 y2 - Z.min y1 y2)%Z) by lia.
  cbn [mbind option_bind].
  eexists. split; [reflexivity|].
  cbn [rect_x rect_y rect_width rect_height]. lia.
Qed.

(** The box of label A in main.cpp's sample run. *)
Lemma worldBoxToImageRect_on_canvas_witness :
  exists r,
    worldBoxToImageRect
      (mk_box (mk_point 1.2 1.2)
         (mk_point 1.6000000000000001 1.3999999999999999))
      SCALE IMAGE_SIZE = Some r /\
    (0 <= rect_x r)%Z /\ (0 <= rect_y r)%Z /\
    (0 <= rect_width r)%Z /\ (0 <= rect_height r)%Z /\
    (rect_x r + rect_width r <= 600)%Z /\
    (rect_y r + rect_height r <= 600)%Z.
Proof.
  apply (worldBoxToImageRect_on_canvas
           (mk_box (mk_point 1.2 1.2)
              (mk_point 1.6000000000000001 1.3999999999999999)));
    repeat split; reflexivity.
Defined.

(** ** Coordinates that are not finite *)

Lemma SFabs_not_below_infinity (x : spec_float) :
  SFltb (SFabs x) (S754_infinity false) = false ->
  forall y, trunc_int (SF64mul x y) = None.
Proof.
  destruct x as [s|s| |s m e]; cbn [SFabs]; try discriminate; intros _ y.
  - unfold SF64mul. destruct y as [sy|sy| |sy my ey]; reflexivity.
  - destruct y; reflexivity.
Qed.

Lemma static_cast_int_not_finite (x scale : float) :
  is_finite x = false -> static_cast_int (x * scale) = None.
Proof.
  unfold is_finite, static_cast_int.
  rewrite FloatAxioms.ltb_spec, FloatAxioms.abs_spec, FloatAxioms.mul_spec.
  change (Prim2SF infinity) with (S754_infinity false).
  intros H. by apply SFabs_not_below_infinity.
Qed.

(** X11. A world point with a NaN or an infinite coordinate has no
    pixel: whatever the scale and the image size, [worldToImage] converts
    a value that is not finite to [int], which is undefined. *)
Theorem worldToImage_not_finite (p : point_t) (scale : float)
    (image_size : Z) :
  is_finite (get0 p) = false \/ is_finite (get1 p) = false ->
  worldToImage p scale image_size = None.
Proof.
  unfold worldToImage. intros [H | H].
  - by rewrite (static_cast_int_not_finite _ scale H).
  - rewrite (static_cast_int_not_finite _ scale H).
    by destruct (static_cast_int (get0 p * scale)).
Qed.

Lemma worldToImage_not_finite_witness :
  worldToImage (mk_point nan 1) SCALE IMAGE_SIZE = None.
Proof.
  apply (worldToImage_not_finite (mk_point nan 1) SCALE IMAGE_SIZE).
  left. reflexivity.
Defined.
